(** * generate_images_json.py: the image manifest builder

    The script lists the directory [img], keeps the entry names that look
    like images ([img*] with an image extension, case-insensitively), sorts
    them in natural numeric order and writes them as a JSON array to
    [img/images.json].

    Python strings are sequences of Unicode code points and are modelled as
    [seq N]; the interpreter's Unicode character database (case mapping and
    decimal digits) is not part of the repository and is taken as a
    parameter, constrained only on the ASCII range where its contents are
    fixed.  Everything else is defined as the script and the library
    functions it calls compute it. *)

From HB Require Import structures.
From Stdlib Require Import NArith ZArith String Ascii DecimalString Lia.
From mathcomp Require Import boot.

Set Warnings "-notation-overridden,-rewrite-rw,-redundant-canonical-projection".
Set Implicit Arguments.
Unset Strict Implicit.
Unset Printing Implicit Defensive.

Delimit Scope N_scope with num.

(** ** Strings *)

(** A Python [str]: the sequence of its code points. *)
Definition str := seq N.

(** ASCII literals, written as Rocq strings. *)
Fixpoint lit (s : string) : str :=
  match s with
  | EmptyString => [::]
  | String a s' => N_of_ascii a :: lit s'
  end.
Arguments lit s%_string.

Definition is_ascii (c : N) : bool := N.ltb c 128.

Definition ascii_lower (c : N) : N :=
  if N.leb 65 c && N.leb c 90 then N.add c 32 else c.

Definition ascii_digit (c : N) : bool := N.leb 48 c && N.leb c 57.

(** The part of the Unicode character database the script relies on:
    [lower] is [str.lower()], [decimal] gives the digit value of the code
    points of category Nd (what [\d] matches in a [str] pattern and what
    [int()] converts).  On ASCII both are the familiar functions. *)
Record unicode_db := UnicodeDB {
  lower : str -> str;
  decimal : N -> option N;
  lower_ascii : forall s, all is_ascii s -> lower s = map ascii_lower s;
  decimal_ascii : forall c, is_ascii c ->
    decimal c = if ascii_digit c then Some (N.sub c 48) else None;
  decimal_digit : forall c v, decimal c = Some v -> N.ltb v 10
}.

(** ** os.path.splitext (posixpath, through genericpath._splitext) *)

Definition sep : N := 47%num.     (* "/" *)
Definition extsep : N := 46%num.  (* "." *)

(** [p.rfind(c)]: the highest index of [c] in [p], or -1. *)
Fixpoint rfind_from (c : N) (p : str) (i : Z) : Z :=
  match p with
  | [::] => (-1)%Z
  | x :: p' =>
      let r := rfind_from c p' (i + 1)%Z in
      if (0 <=? r)%Z then r else if x == c then i else (-1)%Z
  end.

Definition rfind (c : N) (p : str) : Z := rfind_from c p 0%Z.

(** [p[i:j]] for non-negative [i], [j]. *)
Definition slice (p : str) (i j : Z) : str :=
  take (Z.to_nat j - Z.to_nat i) (drop (Z.to_nat i) p).

(** The [while filenameIndex < dotIndex] loop that skips leading dots; it
    returns as soon as a character other than a dot is met, and falls
    through ([None]) when only dots precede the last dot. *)
Fixpoint splitext_loop (n : nat) (p : str) (filenameIndex dotIndex : Z)
  : option (str * str) :=
  match n with
  | 0 => None
  | n'.+1 =>
      if (filenameIndex <? dotIndex)%Z then
        if slice p filenameIndex (filenameIndex + 1)%Z != [:: extsep] then
          Some (take (Z.to_nat dotIndex) p, drop (Z.to_nat dotIndex) p)
        else splitext_loop n' p (filenameIndex + 1)%Z dotIndex
      else None
  end.

Definition splitext (p : str) : str * str :=
  let sepIndex := rfind sep p in
  let dotIndex := rfind extsep p in
  let fallthrough := (p, [::]) in
  if (sepIndex <? dotIndex)%Z then
    let filenameIndex := (sepIndex + 1)%Z in
    match splitext_loop (Z.to_nat (dotIndex - filenameIndex)) p
            filenameIndex dotIndex with
    | Some r => r
    | None => fallthrough
    end
  else fallthrough.

(** ** Comparison of sort keys *)

(** [s < t] on [str]: lexicographic on code points, a proper prefix first. *)
Fixpoint str_lt (s t : str) : bool :=
  match s, t with
  | _, [::] => false
  | [::], _ :: _ => true
  | x :: s', y :: t' => N.ltb x y || (x == y) && str_lt s' t'
  end.

Definition str_le (s t : str) : bool := ~~ str_lt t s.

(** [k1 < k2] on the tuples [(int, str)]. *)
Definition tuple_lt (k1 k2 : N * str) : bool :=
  N.ltb k1.1 k2.1 || (k1.1 == k2.1) && str_lt k1.2 k2.2.

(** [list.sort(key=...)]: a stable sort that compares keys with [<] only.
    A stable sort has one possible result (see [stable_sort_unique]), so
    the merge sort below returns the list CPython's sort returns: its
    merge takes the left element unless the right one is strictly
    smaller. *)
Definition list_sort (T K : Type) (lt : rel K) (key : T -> K)
  : seq T -> seq T :=
  sort (fun x y => ~~ lt (key y) (key x)).

(** ** json.dump(files, f, ensure_ascii=False, indent=2) *)

Definition hex_digit (n : N) : N :=
  if N.ltb n 10 then N.add 48 n else N.add 87 n.

(** [ESCAPE_DCT] of json.encoder: what [py_encode_basestring] substitutes
    for the characters matched by [ESCAPE]; the others stand as they are
    (non-ASCII ones too, since [ensure_ascii] is false). *)
Definition escape (c : N) : str :=
  if c == 92%num then [:: 92; 92]%num            (* backslash *)
  else if c == 34%num then [:: 92; 34]%num       (* double quote *)
  else if c == 8%num then [:: 92; 98]%num        (* \b *)
  else if c == 12%num then [:: 92; 102]%num      (* \f *)
  else if c == 10%num then [:: 92; 110]%num      (* \n *)
  else if c == 13%num then [:: 92; 114]%num      (* \r *)
  else if c == 9%num then [:: 92; 116]%num       (* \t *)
  else if N.ltb c 32 then
    [:: 92; 117; 48; 48; hex_digit (N.div c 16); hex_digit (N.modulo c 16)]%num
  else [:: c].

Definition py_encode_basestring (s : str) : str :=
  34%num :: flatten (map escape s) ++ [:: 34%num].

(** The chunks [_iterencode_list] yields for a list of strings at
    indentation level 0 with [indent=2]. *)
Definition newline_indent : str := [:: 10; 32; 32]%num.

Fixpoint iterencode_items (first : bool) (lst : seq str) : seq str :=
  match lst with
  | [::] => [::]
  | value :: lst' =>
      let buf := if first then 91%num :: newline_indent
                 else 44%num :: newline_indent in
      (buf ++ py_encode_basestring value) :: iterencode_items false lst'
  end.

Definition iterencode (lst : seq str) : seq str :=
  if lst is [::] then [:: lit "[]"]
  else iterencode_items true lst ++ [:: [:: 10%num]; lit "]"].

(** ** The text layer of [open(..., "w", encoding="utf-8")] *)

(** UTF-8 with the strict error handler: surrogates cannot be encoded. *)
Definition utf8_char (c : N) : option (seq N) :=
  if N.ltb c 128 then Some [:: c]
  else if N.ltb c 2048 then
    Some [:: N.lor 192 (N.shiftr c 6); N.lor 128 (N.land c 63)]
  else if N.ltb c 65536 then
    if N.leb 55296 c && N.leb c 57343 then None
    else Some [:: N.lor 224 (N.shiftr c 12);
                  N.lor 128 (N.land (N.shiftr c 6) 63);
                  N.lor 128 (N.land c 63)]
  else if N.ltb c 1114112 then
    Some [:: N.lor 240 (N.shiftr c 18);
             N.lor 128 (N.land (N.shiftr c 12) 63);
             N.lor 128 (N.land (N.shiftr c 6) 63);
             N.lor 128 (N.land c 63)]
  else None.

Fixpoint utf8_encode (s : str) : option (seq N) :=
  match s with
  | [::] => Some [::]
  | c :: s' =>
      match utf8_char c, utf8_encode s' with
      | Some b, Some bs => Some (b ++ bs)
      | _, _ => None
      end
  end.

(** [fp.write(chunk)] for each chunk in turn.  A chunk is encoded as a
    whole when it is written; if that raises, the chunks written before it
    are what the file holds once it is closed.  The boolean tells whether
    every chunk was written. *)
Fixpoint write_chunks (chunks : seq str) (written : seq N) : seq N * bool :=
  match chunks with
  | [::] => (written, true)
  | chunk :: chunks' =>
      match utf8_encode chunk with
      | Some b => write_chunks chunks' (written ++ b)
      | None => (written, false)
      end
  end.

(** ** The file system under [img] *)

Inductive entry :=
  | RegularFile (data : seq N)
  | Subdirectory.

Definition entry_data (e : entry) : option (seq N) :=
  if e is RegularFile data then Some data else None.

Definition data_entry (o : option (seq N)) : entry :=
  if o is Some data then RegularFile data else Subdirectory.

Lemma entry_dataK : cancel entry_data data_entry.
Proof. by case. Qed.

HB.instance Definition _ := Equality.copy entry (can_type entry_dataK).

(** The entries of a directory, in the order in which the system
    enumerates them (an order [os.listdir] leaves unspecified).  Every
    name has an entry of its own: a directory in which [images.json] is a
    link to the file of another name, or to a file elsewhere, is not
    described. *)
Definition directory := seq (str * entry).

(** What the path [img] is, seen from the working directory.  Of the
    permissions, a directory carries the two answers that the script gets
    from the system: [listable], whether the process may list it, and
    [openable], whether the process is allowed to open [images.json] in it
    for writing.  The second is a matter of the mode of that file when it
    exists and of the mode of the directory when the file has to be
    created; a directory that may not be written can thus be [openable],
    and a writable one need not be. *)
Inductive node :=
  | Absent
  | NotADirectory
  | Directory (listable openable : bool) (d : directory).

Inductive exn :=
  | FileNotFoundError
  | NotADirectoryError
  | PermissionError
  | IsADirectoryError
  | UnicodeEncodeError.

Definition os_listdir (fs : node) : exn + seq str :=
  match fs with
  | Absent => inl FileNotFoundError
  | NotADirectory => inl NotADirectoryError
  | Directory listable _ d =>
      if listable then inr (map fst d) else inl PermissionError
  end.

Definition lookup (d : directory) (name : str) : option entry :=
  if [seq ne <- d | ne.1 == name] is ne :: _ then Some ne.2 else None.

(** The regular file [name] of [d] now holds [data]; a new entry is
    created when there was none.  The other names keep their entries,
    which is what happens when none of them is a link to the same file. *)
Fixpoint store (d : directory) (name : str) (data : seq N) : directory :=
  match d with
  | [::] => [:: (name, RegularFile data)]
  | ne :: d' =>
      if ne.1 == name then (name, RegularFile data) :: d'
      else ne :: store d' name data
  end.

(** [posixpath.join(a, b)]. *)
Definition path_join (a b : str) : str :=
  if prefix [:: sep] b then b
  else if (a == [::]) || suffix [:: sep] a then a ++ b
  else a ++ sep :: b.

Definition images_json : str := lit "images.json".

(** [open(out_path, "w")]: the file is created or truncated, unless
    [images.json] is a directory or the system refuses the open. *)
Definition open_w (fs : node) : exn + node :=
  match fs with
  | Absent => inl FileNotFoundError
  | NotADirectory => inl NotADirectoryError
  | Directory listable openable d =>
      if lookup d images_json == Some Subdirectory then inl IsADirectoryError
      else if openable then
        inr (Directory listable openable (store d images_json [::]))
      else inl PermissionError
  end.

(** Closing the file leaves [data] in it. *)
Definition close_file (fs : node) (data : seq N) : node :=
  match fs with
  | Directory listable openable d =>
      Directory listable openable (store d images_json data)
  | _ => fs
  end.

(** [str(n)] for a non-negative integer. *)
Definition str_of_nat (n : nat) : str :=
  lit (NilZero.string_of_uint (N.to_uint (N.of_nat n))).

(** How a run of the script ends: the exit status of the interpreter, the
    file system it leaves, and what it printed on standard output. *)
Record outcome := Outcome {
  status : N;
  after : node;
  stdout : str
}.

(** An exception nobody catches: a traceback on standard error and exit
    status 1. *)
Definition uncaught (e : exn) (fs : node) : outcome :=
  Outcome 1%num fs [::].

(** ** The script *)

Definition IMG_DIR : str := lit "img".

Definition allowed : seq str :=
  [:: lit ".jpg"; lit ".jpeg"; lit ".png"; lit ".webp"; lit ".gif"].

Definition sentinel : N := (10 ^ 9)%num.

Section Script.

Variable U : unicode_db.

(** The test of the [for] loop's [if]. *)
Definition qualifies (name : str) : bool :=
  let low := lower U name in
  prefix (lit "img") low && ((splitext low).2 \in allowed).

Definition is_digit (c : N) : bool := isSome (decimal U c).

Definition digit_val (c : N) : N := odflt 0%num (decimal U c).

(** [re.search(r'(\d+)', s)]: the leftmost position where a digit stands,
    and from there the longest run of digits; [None] when no digit occurs.
    The result is [m.group(1)]. *)
Fixpoint take_digits (s : str) : str :=
  match s with
  | c :: s' => if is_digit c then c :: take_digits s' else [::]
  | [::] => [::]
  end.

Fixpoint re_search_digits (s : str) : option str :=
  match s with
  | [::] => None
  | c :: s' =>
      if is_digit c then Some (c :: take_digits s') else re_search_digits s'
  end.

(** [int(run)] for a run of decimal digits.  Python integers are unbounded. *)
Definition int (run : str) : N :=
  foldl (fun acc c => N.add (N.mul 10 acc) (digit_val c)) 0%num run.

Definition keyfn (s : str) : N * str :=
  (match re_search_digits s with
   | Some run => int run
   | None => sentinel
   end, lower U s).

(** [files] after the loop and [files.sort(key=keyfn)], from what
    [os.listdir] returned. *)
Definition selected (names : seq str) : seq str :=
  [seq name <- names | qualifies name].

Definition files (names : seq str) : seq str :=
  list_sort tuple_lt keyfn (selected names).

Definition out_path : str := path_join IMG_DIR images_json.

(** The whole script, run on a file system. *)
Definition main (fs : node) : outcome :=
  match os_listdir fs with
  | inl e => uncaught e fs
  | inr names =>
      let files := files names in
      match open_w fs with
      | inl e => uncaught e fs
      | inr fs1 =>
          let: (data, complete) := write_chunks (iterencode files) [::] in
          let fs2 := close_file fs1 data in
          if complete then
            Outcome 0%num fs2
              (lit "OK -> " ++ out_path ++ lit " ( " ++
               str_of_nat (size files) ++ lit " imgs )" ++ [:: 10%num])
          else uncaught UnicodeEncodeError fs2
      end
  end.

End Script.

(** ** A small database

    A database that knows ASCII, and the decimal digits of a few other
    scripts (Arabic-Indic, Extended Arabic-Indic, Devanagari, Fullwidth);
    it serves to run the script on concrete names.  On ASCII names every
    database computes what this one computes (see [files_ascii] and
    [main_ascii]). *)
Definition nd_zeros : seq N :=
  [:: 48; 1632; 1776; 2406; 65296]%num.

Definition basic_decimal (c : N) : option N :=
  let hits := [seq z <- nd_zeros | N.leb z c && N.leb c (N.add z 9)] in
  if hits is z :: _ then Some (N.sub c z) else None.

Lemma basic_decimal_ascii c : is_ascii c ->
  basic_decimal c = if ascii_digit c then Some (N.sub c 48) else None.
Proof.
rewrite /is_ascii /basic_decimal /ascii_digit /nd_zeros /=.
move=> /N.ltb_lt Hc.
case: (N.leb_spec 48 c) => H1 /=; case: (N.leb_spec c 57) => H2 //=;
  repeat (match goal with
          | |- context [N.leb ?a ?b] => case: (N.leb_spec a b) => ? /=
          end); try lia; by [].
Qed.

Lemma basic_decimal_digit c v : basic_decimal c = Some v -> N.ltb v 10.
Proof.
rewrite /basic_decimal.
case E: [seq _ <- _ | _] => [|z t] // [<-].
have: z \in [seq z <- nd_zeros | N.leb z c && N.leb c (N.add z 9)].
  by rewrite E mem_head.
rewrite mem_filter => /andP [/andP [/N.leb_le H1 /N.leb_le H2] _].
apply/N.ltb_lt; lia.
Qed.

Definition basic_db : unicode_db :=
  @UnicodeDB (map ascii_lower) basic_decimal (fun _ _ => erefl)
    basic_decimal_ascii basic_decimal_digit.

(** ** Position in a list *)

(** [a] occurs in [s] before the first occurrence of [b]. *)
Definition before (T : eqType) (s : seq T) (a b : T) : bool :=
  (index a s < index b s) && (b \in s).

(** ** Digit runs, in the words of the specification *)

(** [run] is the first maximal run of characters satisfying [d] in [s]:
    nothing before it satisfies [d], it is not empty, and it stops at the
    end of [s] or at a character that does not satisfy [d]. *)
Definition first_run (d : pred N) (s run : str) : Prop :=
  exists pre post,
    [/\ s = pre ++ run ++ post, ~~ has d pre, run != [::], all d run
      & ~~ has d (take 1 post)].

(** The base-10 value of a sequence of digit values, most significant
    first: each digit counts for its value times the power of ten of its
    place. *)
Fixpoint base10_value (ds : seq N) : N :=
  match ds with
  | [::] => 0%num
  | d :: ds' =>
      N.add (N.mul d (N.pow 10 (N.of_nat (size ds')))) (base10_value ds')
  end.

(** ** Looking at a file system *)

Definition names_of (fs : node) : seq str :=
  if fs is Directory _ _ d then map fst d else [::].

Definition contents (fs : node) (name : str) : option entry :=
  if fs is Directory _ _ d then lookup d name else None.

(** The entries under the names other than [images.json], in the order of
    enumeration. *)
Definition other_entries (d : directory) : directory :=
  [seq ne <- d | ne.1 != images_json].

(** [fs2] is what a run finds when it comes after a run that left [fs1]
    and nothing was done to the directory in between: the system gives
    the same answers, [images.json] is the same entry, and the other
    entries are the same, enumerated in the same order.  Where
    [images.json] stands in the enumeration is left open. *)
Definition unchanged (fs1 fs2 : node) : bool :=
  match fs1, fs2 with
  | Absent, Absent => true
  | NotADirectory, NotADirectory => true
  | Directory l1 o1 d1, Directory l2 o2 d2 =>
      [&& l1 == l2, o1 == o2, lookup d1 images_json == lookup d2 images_json
        & other_entries d1 == other_entries d2]
  | _, _ => false
  end.

(** ** The sentences of the specification that the script does not satisfy
    as they are worded *)

(** C2 as the specification words it: among names with a digit run, [a]
    precedes [b] exactly when its number is smaller, or the numbers are
    equal and its lowercased name is not greater. *)
Definition precedes_iff_key_le (U : unicode_db) (names : seq str) : Prop :=
  forall a b ra rb,
    a \in files U names -> b \in files U names ->
    re_search_digits U a = Some ra -> re_search_digits U b = Some rb ->
    (before (files U names) a b <->
     (int U ra < int U rb)%num \/
     (int U ra = int U rb /\ str_le (lower U a) (lower U b))).

(** C3 as the specification words it: a name without digits comes after
    every name with digits. *)
Definition no_digit_names_after_all (U : unicode_db) (names : seq str) : Prop :=
  forall a b ra,
    a \in files U names -> b \in files U names ->
    re_search_digits U a = Some ra -> re_search_digits U b = None ->
    before (files U names) a b.

(** C4 as the specification words it: the number of the key is read from
    the first maximal run of ASCII digits. *)
Definition key_from_ascii_run (U : unicode_db) : Prop :=
  forall s run, first_run ascii_digit s run -> (keyfn U s).1 = int U run.

(** C5 as the specification words it: a subdirectory never appears in the
    manifest. *)
Definition subdirectories_excluded (U : unicode_db) (d : directory) : Prop :=
  forall w name names,
    (name, Subdirectory) \in d ->
    os_listdir (Directory true w d) = inr names ->
    name \notin files U names.

(** C9 as the specification words it: "images.json" passes the prefix
    test, fails the extension test, and so is never in the manifest. *)
Definition images_json_excluded_by_extension
  (U : unicode_db) (names : seq str) : Prop :=
  [/\ prefix (lit "img") (lower U images_json),
      (splitext (lower U images_json)).2 \notin allowed
    & images_json \notin files U names].

(** * Properties *)

(** ** Strict total orders and the comparison a sort makes *)

Section StrictTotal.

Variables (T : eqType) (lt : rel T).
Hypothesis lt_irr : irreflexive lt.
Hypothesis lt_trans : transitive lt.
Hypothesis lt_tri : forall x y, [|| lt x y, x == y | lt y x].

Lemma lt_asym x y : lt x y -> ~~ lt y x.
Proof.
move=> xy; apply/negP => yx.
by move: (lt_trans xy yx); rewrite lt_irr.
Qed.

Lemma nlt_total : total (fun x y => ~~ lt y x).
Proof.
move=> x y; case yx: (lt y x) => //=.
by rewrite lt_asym.
Qed.

Lemma nlt_trans : transitive (fun x y => ~~ lt y x).
Proof.
move=> y x z /= nyx nzy; apply/negP => zx.
case/or3P: (lt_tri x y) => [xy | /eqP xy | yx].
- by move: (lt_trans zx xy) nzy => ->.
- by move: zx nzy; rewrite xy => ->.
- by move: yx nyx => ->.
Qed.

Lemma nlt_anti : antisymmetric (fun x y => ~~ lt y x).
Proof.
move=> x y /andP [nyx nxy].
by case/or3P: (lt_tri x y) nyx nxy => [-> | /eqP | ->].
Qed.

End StrictTotal.

Lemma str_lt_irr : irreflexive str_lt.
Proof. by elim=> //= x s ->; rewrite N.ltb_irrefl eqxx. Qed.

Lemma str_lt_trans : transitive str_lt.
Proof.
move=> t s u; elim: s t u => [|x s IH] [|y t] [|z u] //=.
case/orP => [/N.ltb_lt xy | /andP [/eqP <- st]].
- case/orP => [/N.ltb_lt yz | /andP [/eqP <- _]].
  + by apply/orP; left; apply/N.ltb_lt; lia.
  + by apply/orP; left; apply/N.ltb_lt.
- case/orP => [-> // | /andP [-> tu]].
  by rewrite (IH _ _ st tu) orbT.
Qed.

Lemma str_lt_tri s t : [|| str_lt s t, s == t | str_lt t s].
Proof.
elim: s t => [|x s IH] [|y t] //=.
rewrite eqseq_cons [y == x]eq_sym.
case: (N.compare_spec x y) => [-> | /N.ltb_lt -> // | /N.ltb_lt ->].
- by rewrite N.ltb_irrefl eqxx /=.
- by rewrite !orbT.
Qed.

Lemma tuple_lt_irr : irreflexive tuple_lt.
Proof. by case=> n s; rewrite /tuple_lt /= N.ltb_irrefl eqxx str_lt_irr. Qed.

Lemma tuple_lt_trans : transitive tuple_lt.
Proof.
move=> [n2 s2] [n1 s1] [n3 s3]; rewrite /tuple_lt /=.
case/orP => [/N.ltb_lt H12 | /andP [/eqP <- s12]].
- case/orP => [/N.ltb_lt H23 | /andP [/eqP <- _]].
  + by apply/orP; left; apply/N.ltb_lt; lia.
  + by apply/orP; left; apply/N.ltb_lt.
- case/orP => [-> // | /andP [-> s23]].
  by rewrite (str_lt_trans s12 s23) orbT.
Qed.

Lemma tuple_lt_tri k1 k2 : [|| tuple_lt k1 k2, k1 == k2 | tuple_lt k2 k1].
Proof.
case: k1 k2 => [n1 s1] [n2 s2]; rewrite /tuple_lt /= -pair_eqE /=.
rewrite [n2 == n1]eq_sym.
case: (N.compare_spec n1 n2) => [-> | /N.ltb_lt -> // | /N.ltb_lt ->].
- by rewrite N.ltb_irrefl eqxx /= str_lt_tri.
- by rewrite !orbT.
Qed.

(** ** Position in a list: [before] *)

Section Before.

Variable T : eqType.
Implicit Types (s : seq T) (a b : T).

Lemma before_cons x s a b :
  x != a -> x != b -> before (x :: s) a b = before s a b.
Proof.
by move=> xa xb; rewrite /before /= inE (negbTE xa) (negbTE xb) ltnS eq_sym (negbTE xb).
Qed.

(** The two elements, taken out of a duplicate-free list, come in the
    order [before] tells. *)
Lemma filter_pair_before s a b :
  uniq s -> a \in s -> b \in s -> a != b ->
  [seq x <- s | (x == a) || (x == b)] =
  if before s a b then [:: a; b] else [:: b; a].
Proof.
elim: s => [|x s IH] //= /andP [x_s us]; rewrite !inE => a_s b_s ab.
have [/eqP xa | xa] := boolP (x == a).
  have b_in : b \in s by move: b_s; rewrite xa eq_sym (negbTE ab).
  rewrite /before /= inE xa eqxx (negbTE ab) /= b_in orbT; congr (_ :: _).
  rewrite -(filter_pred1_uniq us b_in); apply: eq_in_filter => y y_s /=.
  by case ya: (y == a) => //; move: x_s; rewrite xa -(eqP ya) y_s.
have [/eqP xb | xb] := boolP (x == b).
  have a_in : a \in s by move: a_s; rewrite xb (negbTE ab).
  rewrite /before /= xb eqxx eq_sym (negbTE ab) /=; congr (_ :: _).
  rewrite -(filter_pred1_uniq us a_in); apply: eq_in_filter => y y_s /=.
  by case yb: (y == b); rewrite ?orbF ?orbT //; move: x_s; rewrite xb -(eqP yb) y_s.
rewrite /= before_cons //; apply: IH => //.
- by move: a_s; rewrite eq_sym (negbTE xa).
- by move: b_s; rewrite eq_sym (negbTE xb).
Qed.

(** Filtering keeps the relative position of what it keeps. *)
Lemma before_filter (p : pred T) s a b :
  p a -> p b -> before [seq x <- s | p x] a b = before s a b.
Proof.
move=> pa pb; elim: s => [|x s IH] //=.
have [xb | xb] := boolP (x == b).
  by rewrite (eqP xb) pb /before /= eqxx !ltn0.
have [xa | xa] := boolP (x == a).
  move: xb; rewrite (eqP xa) pa => ab.
  by rewrite /before /= eqxx !inE (negbTE ab) eq_sym (negbTE ab) /= mem_filter pb.
case: (p x); rewrite ?before_cons //.
Qed.

Lemma before_irr s a : before s a a = false.
Proof. by rewrite /before ltnn. Qed.

End Before.

(** ** [list.sort(key=...)] as a stable sort *)

Section StableSort.

Variables (T K : eqType) (key : T -> K) (lt : rel K).
Hypothesis lt_irr : irreflexive lt.
Hypothesis lt_trans : transitive lt.
Hypothesis lt_tri : forall x y, [|| lt x y, x == y | lt y x].

Let leT : rel T := fun x y => ~~ lt (key y) (key x).

Lemma leT_total : total leT.
Proof. by move=> x y; apply: (nlt_total lt_irr lt_trans). Qed.

Lemma leT_trans : transitive leT.
Proof. by move=> y x z; apply: (nlt_trans lt_trans lt_tri). Qed.

Lemma leT_refl : reflexive leT.
Proof. by move=> x; rewrite /leT lt_irr. Qed.

Lemma leT_anti x y : leT x y -> leT y x -> key x = key y.
Proof.
rewrite /leT => xy yx; apply: (nlt_anti lt_tri).
by rewrite xy yx.
Qed.

Lemma class_pairwise k s : all (fun x => key x == k) s -> pairwise leT s.
Proof.
elim: s => //= x s IH /andP [/eqP kx ks]; rewrite IH // andbT.
apply/allP => y y_s; move/allP/(_ _ y_s)/eqP: ks => ky.
by rewrite /leT kx ky lt_irr.
Qed.

Lemma list_sort_sorted s : sorted leT (list_sort lt key s).
Proof. exact: (sort_sorted leT_total). Qed.

Lemma perm_list_sort s : perm_eq (list_sort lt key s) s.
Proof. by rewrite /list_sort; apply/permPl/perm_sort. Qed.

Lemma mem_list_sort s : list_sort lt key s =i s.
Proof. exact: mem_sort. Qed.

Lemma list_sort_uniq s : uniq (list_sort lt key s) = uniq s.
Proof. exact: sort_uniq. Qed.

(** Stability: the sort commutes with every filter. *)
Lemma filter_list_sort p s :
  [seq x <- list_sort lt key s | p x] = list_sort lt key [seq x <- s | p x].
Proof. exact: (filter_sort leT_total leT_trans). Qed.

(** In a sorted list, an element with a strictly smaller key comes first. *)
Lemma sorted_lt_before s a b :
  sorted leT s -> a \in s -> b \in s -> lt (key a) (key b) -> before s a b.
Proof.
move=> ss a_s b_s ab; rewrite /before b_s andbT ltnNge; apply/negP => le_ba.
have /(_ _ _ b_s a_s le_ba) := sorted_leq_index leT_trans leT_refl ss.
by rewrite /leT ab.
Qed.

(** In a sorted list, what comes first has a key that is not greater. *)
Lemma sorted_before_le s a b :
  sorted leT s -> a \in s -> before s a b -> leT a b.
Proof.
move=> ss a_s /andP [/ltnW le_ab b_s].
by have /(_ _ _ a_s b_s le_ab) := sorted_leq_index leT_trans leT_refl ss.
Qed.

(** Two sorted lists that agree on every class of equal keys are equal. *)
Lemma sorted_classes_eq s1 s2 :
  sorted leT s1 -> sorted leT s2 ->
  (forall k, [seq x <- s1 | key x == k] = [seq x <- s2 | key x == k]) ->
  s1 = s2.
Proof.
elim: s1 s2 => [|a t1 IH] [|b t2] //.
- by move=> _ _ /(_ (key b)) /=; rewrite eqxx.
- by move=> _ _ /(_ (key a)) /=; rewrite eqxx.
move=> pa pb cls.
have le_ba : leT b a.
  have: a \in [seq x <- a :: t1 | key x == key a] by rewrite /= eqxx mem_head.
  rewrite cls mem_filter inE => /andP [_ /orP [/eqP -> | a_t2]].
    exact: leT_refl.
  by move/(order_path_min leT_trans)/allP: pb; apply.
have le_ab : leT a b.
  have: b \in [seq x <- b :: t2 | key x == key b] by rewrite /= eqxx mem_head.
  rewrite -cls mem_filter inE => /andP [_ /orP [/eqP -> | b_t1]].
    exact: leT_refl.
  by move/(order_path_min leT_trans)/allP: pa; apply.
have kab : key a = key b by apply: leT_anti.
have ab : a = b by move: (cls (key a)); rewrite /= kab !eqxx; case.
rewrite ab; congr (_ :: _); apply: IH.
- exact: path_sorted pa.
- exact: path_sorted pb.
move=> k; move: (cls k); rewrite ab /=.
by case: (key b == k) => // -[].
Qed.

(** The result of a stable sort is determined: a sorted list that keeps
    every class of equal keys as it stood in [s] is [list_sort lt key s]. *)
Lemma stable_sort_unique s out :
  sorted leT out ->
  (forall k, [seq x <- out | key x == k] = [seq x <- s | key x == k]) ->
  out = list_sort lt key s.
Proof.
move=> so cls; apply: sorted_classes_eq => //; first exact: list_sort_sorted.
move=> k; rewrite filter_list_sort cls.
rewrite /list_sort pairwise_sort //; apply: (@class_pairwise k).
exact: filter_all.
Qed.

Lemma list_sort2 a b :
  list_sort lt key [:: a; b] = if leT a b then [:: a; b] else [:: b; a].
Proof. by rewrite /list_sort /sort /= -/(leT a b); case: (leT a b). Qed.

(** Where two distinct elements of a duplicate-free list end up relative
    to each other: the keys decide, and equal keys keep the order. *)
Lemma before_list_sort s a b :
  uniq s -> a \in s -> b \in s -> a != b ->
  before (list_sort lt key s) a b =
  if before s a b then ~~ lt (key b) (key a) else lt (key a) (key b).
Proof.
move=> us a_s b_s ab.
have Hs := filter_pair_before us a_s b_s ab.
have: [seq x <- list_sort lt key s | (x == a) || (x == b)] =
      if before (list_sort lt key s) a b then [:: a; b] else [:: b; a].
  by apply: filter_pair_before; rewrite ?list_sort_uniq ?mem_list_sort.
have swap : [:: a; b] <> [:: b; a] by case=> /eqP; rewrite (negbTE ab).
rewrite filter_list_sort Hs.
case: (before s a b); rewrite list_sort2 /leT.
- by case: (lt (key b) (key a)); case: (before _ a b) => //= /esym.
- by case: (lt (key a) (key b)); case: (before _ a b) => //= /esym.
Qed.

End StableSort.

(** Two key functions that agree on the elements of a list sort it alike. *)
Lemma list_sort_eq_in (T K : eqType) (key1 key2 : T -> K) (lt : rel K) s :
  irreflexive lt -> transitive lt ->
  (forall x y, [|| lt x y, x == y | lt y x]) ->
  {in s, key1 =1 key2} -> list_sort lt key1 s = list_sort lt key2 s.
Proof.
move=> irr tr tri E; apply: (stable_sort_unique irr tr tri).
- rewrite -(@eq_in_sorted _ (mem s) (fun x y => ~~ lt (key1 y) (key1 x))).
  + by move=> x y xs ys /=; rewrite !E.
  + by apply/allP => x; rewrite mem_list_sort.
  + exact: list_sort_sorted.
- move=> k.
  have -> : [seq x <- list_sort lt key1 s | key2 x == k] =
            [seq x <- list_sort lt key1 s | key1 x == k].
    by apply: eq_in_filter => x; rewrite mem_list_sort => /E ->.
  have cls : pairwise (fun x y => ~~ lt (key1 y) (key1 x))
               [seq x <- s | key1 x == k].
    by apply: (class_pairwise irr (k := k)); apply: filter_all.
  rewrite (filter_list_sort _ irr tr tri) /list_sort (pairwise_sort cls).
  by apply: eq_in_filter => x /E ->.
Qed.

(** ** [os.path.splitext] finds the extension *)

Section Splitext.

Implicit Types (p : str) (c : N) (i : Z).

Lemma rfind_from_notin c p i : c \notin p -> rfind_from c p i = (-1)%Z.
Proof.
elim: p i => [|x p IH] i //=; rewrite inE negb_or eq_sym.
by case/andP=> /negbTE -> /IH ->.
Qed.

Lemma rfind_from_last c p1 p2 i :
  (0 <= i)%Z -> c \notin p2 ->
  rfind_from c (p1 ++ c :: p2) i = (i + Z.of_nat (size p1))%Z.
Proof.
move=> + np2; elim: p1 i => [|x p1 IH] i i0 /=.
  by rewrite rfind_from_notin //= eqxx Z.add_0_r.
have -> := IH (i + 1)%Z ltac:(lia).
by rewrite Zpos_P_of_succ_nat; case: Z.leb_spec => ?; lia.
Qed.

Lemma rfind_from_ge c p i : (0 <= i)%Z -> (-1 <= rfind_from c p i)%Z.
Proof.
elim: p i => [|x p IH] i i0 /=; first lia.
have := IH (i + 1)%Z; case: Z.leb_spec => ?; first lia.
by case: ifP => _ _; lia.
Qed.

(** The last occurrence of a character splits the string. *)
Lemma last_occurrence c p :
  c \in p -> exists p1 p2, p = p1 ++ c :: p2 /\ c \notin p2.
Proof.
elim: p => [|x p IH] //; rewrite inE.
have [c_p | nc_p] := boolP (c \in p).
  move=> _; by have [p1 [p2 [-> np2]]] := IH c_p; exists (x :: p1), p2.
by rewrite orbF => /eqP E; exists [::], p; rewrite -E.
Qed.

Lemma last_occurrence_uniq c p1 p2 q1 q2 :
  p1 ++ c :: p2 = q1 ++ c :: q2 -> c \notin p2 -> c \notin q2 ->
  p1 = q1 /\ p2 = q2.
Proof.
move=> E np2 nq2.
have sz : size p1 = size q1.
  have := rfind_from_last p1 (Z.le_refl 0) np2.
  by rewrite E rfind_from_last // => /Z.add_reg_l /Nat2Z.inj.
have := congr1 (take (size p1)) E; have := congr1 (drop (size p1)) E.
rewrite take_size_cat // drop_size_cat // sz take_size_cat // drop_size_cat //.
by case=> ->.
Qed.

Lemma splitext_loop_has n p f d :
  (0 <= f)%Z -> (f + Z.of_nat n = d)%Z -> (Z.to_nat d <= size p)%coq_nat ->
  splitext_loop n p f d =
  if has (predC1 extsep) (take n (drop (Z.to_nat f) p))
  then Some (take (Z.to_nat d) p, drop (Z.to_nat d) p) else None.
Proof.
elim: n f => [|n IH] f f0 fd dp /=; first by rewrite take0.
have -> : (f <? d)%Z = true by apply/Z.ltb_lt; lia.
have fp : Z.to_nat f < size p by apply/ltP; lia.
have Ef1 : Z.to_nat (f + 1) = (Z.to_nat f).+1 by lia.
rewrite /slice Ef1 subSnn (drop_nth 0%num fp) /= take0 eqseq_cons eqxx andbT.
by case: ifP => //= _; rewrite IH ?Ef1 //; lia.
Qed.

(** Without a separator in it, a string is split at its last dot, unless
    only dots come before it. *)
Lemma splitext_last_dot p1 p2 :
  sep \notin p1 ++ extsep :: p2 -> extsep \notin p2 ->
  splitext (p1 ++ extsep :: p2) =
  if has (predC1 extsep) p1 then (p1, extsep :: p2)
  else (p1 ++ extsep :: p2, [::]).
Proof.
move=> nsep np2; rewrite /splitext /rfind rfind_from_notin //.
rewrite rfind_from_last //=.
have -> : (-1 <? Z.of_nat (size p1))%Z = true by apply/Z.ltb_lt; lia.
have sz : (Z.to_nat (Z.of_nat (size p1)) <= size (p1 ++ extsep :: p2))%coq_nat.
  by rewrite Nat2Z.id size_cat; apply/leP/leq_addr.
rewrite Z.sub_0_r Nat2Z.id (splitext_loop_has (Z.le_refl 0) (Z.add_0_l _) sz).
rewrite /= drop0 Nat2Z.id take_size_cat // drop_size_cat //.
by case: ifP.
Qed.

Lemma splitext_no_dot p : extsep \notin p -> splitext p = (p, [::]).
Proof.
move=> nd; rewrite /splitext /rfind (rfind_from_notin _ nd).
have := @rfind_from_ge sep p 0%Z (Z.le_refl 0).
by case: Z.ltb_spec => //; lia.
Qed.

End Splitext.

(** ** The sort key *)

Section Keys.

Variable U : unicode_db.
Implicit Types (s run pre post : str).

Local Arguments N.mul : simpl never.
Local Arguments N.add : simpl never.
Local Arguments N.pow : simpl never.
Local Arguments N.of_nat : simpl never.

Lemma is_digit_ascii c : is_ascii c -> is_digit U c = ascii_digit c.
Proof. by move=> ac; rewrite /is_digit decimal_ascii //; case: ifP. Qed.

Lemma digit_val_ascii c : ascii_digit c -> digit_val U c = N.sub c 48.
Proof.
move=> dc; rewrite /digit_val decimal_ascii ?dc //.
by case/andP: dc => _ /N.leb_le ?; apply/N.ltb_lt; lia.
Qed.

Lemma take_digits_run run post :
  all (is_digit U) run -> ~~ has (is_digit U) (take 1 post) ->
  take_digits U (run ++ post) = run.
Proof.
move=> + npost; elim: run => [_ | c run IH /= /andP [-> /IH -> //]].
by case: post npost => //= c post; rewrite take0 orbF => /negbTE ->.
Qed.

(** What [re.search] finds is the first maximal run of digits. *)
Lemma re_search_first_run s run :
  first_run (is_digit U) s run -> re_search_digits U s = Some run.
Proof.
case=> pre [post] [-> npre nnil drun npost] {s}.
elim: pre npre => [_ | c pre IH] /=; last first.
  by rewrite negb_or => /andP [/negbTE -> /IH].
case: run nnil drun => // c run _ /= /andP [-> drun].
by rewrite take_digits_run.
Qed.

Lemma take_digitsP s :
  exists post,
    [/\ s = take_digits U s ++ post, all (is_digit U) (take_digits U s)
      & ~~ has (is_digit U) (take 1 post)].
Proof.
elim: s => [|c s [post [Es ds npost]]] /=; first by exists [::].
case dc: (is_digit U c); last by exists (c :: s); rewrite /= dc take0.
by exists post; rewrite /= dc -Es.
Qed.

(** And [re.search] finds a run whenever a digit occurs. *)
Lemma re_search_some s run :
  re_search_digits U s = Some run -> first_run (is_digit U) s run.
Proof.
elim: s => [|c s IH] //=; case dc: (is_digit U c).
  case=> <-; have [post [Es ds npost]] := take_digitsP s.
  by exists [::], post; split; rewrite //= ?dc // -Es.
case/IH=> pre [post] [Es npre nnil drun npost].
by exists (c :: pre), post; split; rewrite //= ?dc // Es.
Qed.

Lemma re_search_none s :
  (re_search_digits U s == None) = ~~ has (is_digit U) s.
Proof. by elim: s => //= c s IH; case: (is_digit U c). Qed.

Lemma int_foldl acc run :
  foldl (fun acc c => N.add (N.mul 10 acc) (digit_val U c)) acc run =
  N.add (N.mul acc (N.pow 10 (N.of_nat (size run))))
        (base10_value (map (digit_val U) run)).
Proof.
elim: run acc => [|c run IH] acc /=; first by rewrite N.mul_1_r N.add_0_r.
by rewrite IH size_map Nat2N.inj_succ N.pow_succ_r'; lia.
Qed.

Lemma int_base10 run : int U run = base10_value (map (digit_val U) run).
Proof. by rewrite /int int_foldl. Qed.

(** A run of [n] digits is a number below [10 ^ n], and the number tells
    the digits: nothing of the run is lost in it. *)
Lemma base10_value_lt ds :
  all (fun d => N.ltb d 10) ds ->
  (base10_value ds < 10 ^ N.of_nat (size ds))%num.
Proof.
elim: ds => [|d ds IH] //= /andP [/N.ltb_lt d10 /IH {}IH].
rewrite Nat2N.inj_succ N.pow_succ_r'; nia.
Qed.

Lemma base10_value_inj ds1 ds2 :
  size ds1 = size ds2 ->
  all (fun d => N.ltb d 10) ds1 -> all (fun d => N.ltb d 10) ds2 ->
  base10_value ds1 = base10_value ds2 -> ds1 = ds2.
Proof.
elim: ds1 ds2 => [|d1 ds1 IH] [|d2 ds2] //= [sz].
case/andP=> _ /[dup] a1 /base10_value_lt b1.
case/andP=> _ /[dup] a2 /base10_value_lt b2.
rewrite -sz in b2 *; move=> E.
have Ed : d1 = d2 by nia.
by rewrite Ed (IH ds2) //; move: E; rewrite Ed; lia.
Qed.

Lemma digit_val_lt10 c : N.ltb (digit_val U c) 10.
Proof.
by rewrite /digit_val; case E: (decimal U c) => [v|] //=; apply: decimal_digit E.
Qed.

Lemma int_lt_pow run : (int U run < 10 ^ N.of_nat (size run))%num.
Proof.
rewrite int_base10 -(size_map (digit_val U)); apply: base10_value_lt.
by rewrite all_map; apply/allP => c _ /=; apply: digit_val_lt10.
Qed.

(** The number of the key is the integer of the run [re.search] finds. *)
Lemma keyfn_of_run s run :
  first_run (is_digit U) s run -> (keyfn U s).1 = int U run.
Proof. by move=> /re_search_first_run; rewrite /keyfn => ->. Qed.

End Keys.

Lemma N_lt_ltb x y :
  (x < y)%num ->
  (N.ltb x y = true) * (N.ltb y x = false) * ((x == y) = false) *
  ((y == x) = false).
Proof.
move=> xy; do !split.
- exact/N.ltb_lt.
- by apply/N.ltb_ge; lia.
- by apply/eqP => E; lia.
- by apply/eqP => E; lia.
Qed.

(** ** The manifest *)

Section Manifest.

Variable U : unicode_db.
Implicit Types (names : seq str) (name a b : str).

Lemma mem_files names name :
  (name \in files U names) = (name \in names) && qualifies U name.
Proof.
by rewrite /files mem_list_sort mem_filter andbC.
Qed.

Lemma files_uniq names : uniq names -> uniq (files U names).
Proof.
by move=> un; rewrite /files list_sort_uniq filter_uniq.
Qed.

Lemma files_sorted names :
  sorted (fun a b => ~~ tuple_lt (keyfn U b) (keyfn U a)) (files U names).
Proof. exact: (list_sort_sorted (keyfn U) tuple_lt_irr tuple_lt_trans). Qed.

Lemma perm_files names : perm_eq (files U names) (selected U names).
Proof. exact: perm_list_sort. Qed.

Lemma before_files names a b :
  uniq names -> a \in files U names -> b \in files U names -> a != b ->
  before (files U names) a b =
  if before names a b then ~~ tuple_lt (keyfn U b) (keyfn U a)
  else tuple_lt (keyfn U a) (keyfn U b).
Proof.
rewrite !mem_files => un /andP [a_n qa] /andP [b_n qb] ab.
rewrite /files /selected.
rewrite (before_list_sort _ tuple_lt_irr tuple_lt_trans tuple_lt_tri) //.
- exact: filter_uniq.
- by rewrite mem_filter qa.
- by rewrite mem_filter qb.
- by rewrite before_filter.
Qed.

Lemma images_json_rejected : qualifies U images_json = false.
Proof. by rewrite /qualifies lower_ascii. Qed.

End Manifest.

(** The extension test of the filter, said without [splitext]: for a
    lowercased name that holds no separator and starts with "img", the
    extension is allowed exactly when the name ends with one of the allowed
    extensions. *)
Lemma qualifies_suffix (U : unicode_db) (name : str) :
  sep \notin lower U name ->
  qualifies U name =
  prefix (lit "img") (lower U name) &&
  has (fun e => suffix e (lower U name)) allowed.
Proof.
rewrite /qualifies; move: (lower U name) => low nsep.
have [/prefixP [rest Elow] | //] := boolP (prefix _ low).
have allowed_dot e : e \in allowed ->
    exists2 e', e = extsep :: e' & extsep \notin e'.
  rewrite !inE => /or4P [/eqP -> | /eqP -> | /eqP -> | /orP [] /eqP ->].
  - by exists (lit "jpg").
  - by exists (lit "jpeg").
  - by exists (lit "png").
  - by exists (lit "webp").
  - by exists (lit "gif").
set ends := has _ allowed.
have [dot | nodot] := boolP (extsep \in low); last first.
  rewrite splitext_no_dot //=; apply/esym/negbTE/hasPn => e /allowed_dot.
  case=> e' -> _; apply/negP => /suffixP [q Eq].
  by move: nodot; rewrite Eq mem_cat inE eqxx orbT.
have [p1 [p2 [E np2]]] := last_occurrence dot.
have hp1 : has (predC1 extsep) p1.
  by move: E; rewrite Elow; case: p1 => [|x p1] //= [<-].
rewrite E splitext_last_dot -?E // hp1 /= /ends {ends}.
apply/idP/hasP => [ext_in | [e e_in /suffixP [q Eq]]].
  by exists (extsep :: p2) => //; apply/suffixP; exists p1.
have [e' Ee ne'] := allowed_dot e e_in.
move: Eq; rewrite Ee E => /last_occurrence_uniq [] // _ ->.
by rewrite -Ee.
Qed.

(** ** ASCII names do not depend on the database *)

(** On names made of ASCII characters, every database answers alike, so
    that what the script computes on such names with [basic_db] is what it
    computes with any other. *)
Section Ascii.

Variables U V : unicode_db.
Implicit Types (s run : str) (names : seq str).

Lemma decimal_ascii_eq c : is_ascii c -> decimal U c = decimal V c.
Proof. by move=> ac; rewrite !decimal_ascii. Qed.

Lemma take_digits_ascii s :
  all is_ascii s ->
  take_digits U s = take_digits V s /\ all is_ascii (take_digits U s).
Proof.
elim: s => [|c s IH] //= /andP [ac /IH [E a]].
by rewrite /is_digit -(decimal_ascii_eq ac); case: isSome => /=; rewrite ?ac -?E.
Qed.

Lemma int_ascii run : all is_ascii run -> int U run = int V run.
Proof.
rewrite /int; elim: run 0%num => [|c run IH] acc //= /andP [ac /IH ->].
by rewrite /digit_val (decimal_ascii_eq ac).
Qed.

Lemma re_search_ascii s :
  all is_ascii s ->
  re_search_digits U s = re_search_digits V s /\
  (forall run, re_search_digits U s = Some run -> all is_ascii run).
Proof.
elim: s => [|c s IH] //= /andP [ac a_s].
rewrite /is_digit -(decimal_ascii_eq ac); case: isSome; last exact: IH.
have [<- a_run] := take_digits_ascii a_s.
by split=> // run [<-]; rewrite /= ac.
Qed.

Lemma keyfn_ascii s : all is_ascii s -> keyfn U s = keyfn V s.
Proof.
move=> a_s; rewrite /keyfn !lower_ascii //; congr (_, _).
have [<- a_run] := re_search_ascii a_s.
by case E: (re_search_digits U s) => [run|] //; apply/int_ascii/a_run.
Qed.

Lemma qualifies_ascii s : all is_ascii s -> qualifies U s = qualifies V s.
Proof. by move=> a_s; rewrite /qualifies !lower_ascii. Qed.

Lemma files_ascii names :
  all (all is_ascii) names -> files U names = files V names.
Proof.
move=> a_n; rewrite /files /selected.
have -> : [seq name <- names | qualifies U name] =
          [seq name <- names | qualifies V name].
  by apply: eq_in_filter => s /(allP a_n)/qualifies_ascii.
apply: (list_sort_eq_in tuple_lt_irr tuple_lt_trans tuple_lt_tri) => s.
by rewrite mem_filter => /andP [_ /(allP a_n)/keyfn_ascii].
Qed.

Lemma main_ascii fs :
  all (all is_ascii) (names_of fs) -> main U fs = main V fs.
Proof.
by case: fs => [| | [] w d] //= a_n; rewrite /main /= files_ascii.
Qed.

End Ascii.

(** ** Directories as stores *)

Lemma lookup_cons ne (d : directory) name :
  lookup (ne :: d) name = if ne.1 == name then Some ne.2 else lookup d name.
Proof. by rewrite /lookup /=; case: ifP. Qed.

Lemma lookup_store d name data :
  lookup (store d name data) name = Some (RegularFile data).
Proof.
elim: d => [|ne d IH] /=; first by rewrite lookup_cons eqxx.
by case: ifP => [_ | ne_name]; rewrite lookup_cons /= ?eqxx ?ne_name.
Qed.

Lemma store_names d name data :
  map fst (store d name data) =
  if name \in map fst d then map fst d else rcons (map fst d) name.
Proof.
elim: d => [|ne d IH] //=; rewrite inE [name == _]eq_sym.
case: ifP => [/eqP -> | _] //=.
by rewrite IH; case: ifP.
Qed.

Lemma store_uniq d name data :
  uniq (map fst d) -> uniq (map fst (store d name data)).
Proof.
by move=> ud; rewrite store_names; case: ifP => // nd; rewrite rcons_uniq nd.
Qed.

Lemma mem_store d name data : (name, RegularFile data) \in store d name data.
Proof.
elim: d => [|ne d IH] /=; first exact: mem_head.
by case: ifP => _; rewrite inE ?eqxx ?IH ?orbT.
Qed.

Lemma lookup_uniq d name e :
  uniq (map fst d) -> (name, e) \in d -> lookup d name = Some e.
Proof.
elim: d => [|ne d IH] //= /andP [ne_d ud]; rewrite inE lookup_cons.
case/orP => [/eqP <- | in_d]; first by rewrite /= eqxx.
case: ifP => [/eqP E | _]; last exact: IH.
by move: ne_d; rewrite E (map_f fst in_d).
Qed.





(** ** The scenarios of the specification *)

Lemma scenario_mixed_directory :
  files basic_db
    [:: lit "img2.png"; lit "img10.webp"; lit "img1.jpg"; lit "cover.png";
        lit "IMG3.GIF"] =
  [:: lit "img1.jpg"; lit "img2.png"; lit "IMG3.GIF"; lit "img10.webp"].
Proof. by vm_compute. Qed.

Lemma scenario_empty_directory :
  main basic_db (Directory true true [::]) =
  Outcome 0%num
    (Directory true true [:: (images_json, RegularFile (lit "[]"))])
    (lit "OK -> img/images.json ( 0 imgs )" ++ [:: 10%num]).
Proof. by vm_compute. Qed.

Lemma scenario_no_match :
  files basic_db [:: lit "cover.png"; lit "img.txt"; lit ".img1.png"] = [::].
Proof. by vm_compute. Qed.

Lemma scenario_missing_directory :
  main basic_db Absent = Outcome 1%num Absent [::].
Proof. by []. Qed.

(** A few values of the library functions, as Python computes them. *)
Lemma splitext_values :
  [/\ splitext (lit "img.tar.gz") = (lit "img.tar", lit ".gz"),
      splitext (lit ".bashrc") = (lit ".bashrc", [::]),
      splitext (lit "...jpg") = (lit "...jpg", [::]),
      splitext (lit "img1") = (lit "img1", [::])
    & splitext (lit "a.b/c") = (lit "a.b/c", [::])].
Proof. by split; vm_compute. Qed.

Lemma utf8_values :
  [/\ utf8_encode [:: 233%num] = Some [:: 195; 169]%num,
      utf8_encode [:: 8364%num] = Some [:: 226; 130; 172]%num,
      utf8_encode [:: 128512%num] = Some [:: 240; 159; 152; 128]%num
    & utf8_encode [:: 56448%num] = None].
Proof. by split; vm_compute. Qed.

Lemma json_values :
  flatten (iterencode [:: lit "img1.jpg"; lit "img2.png"]) =
    [:: 91; 10; 32; 32; 34]%num ++ lit "img1.jpg" ++
    [:: 34; 44; 10; 32; 32; 34]%num ++ lit "img2.png" ++
    [:: 34; 10; 93]%num /\
  py_encode_basestring [:: 97; 34; 92; 10; 1; 233]%num =
    [:: 34; 97; 92; 34; 92; 92; 92; 110]%num ++ lit "\u0001" ++
    [:: 233; 34]%num.
Proof. by split; vm_compute. Qed.

(** * The claims *)

(** C1: for every directory listing, the manifest contains exactly the
    listed names whose lowercased form starts with "img" and whose
    lowercased extension is one of .jpg, .jpeg, .png, .webp, .gif, and no
    other name; names that differ only by the case of their letters are
    treated alike by both tests. *)
Theorem manifest_membership (U : unicode_db) (names : seq str) :
  [/\ forall name,
        name \in files U names <->
        [/\ name \in names, prefix (lit "img") (lower U name)
          & (splitext (lower U name)).2 \in allowed],
      forall a b,
        a \in names -> b \in names -> lower U a = lower U b ->
        (a \in files U names) = (b \in files U names)
    & forall a b,
        all is_ascii a -> all is_ascii b ->
        map ascii_lower a = map ascii_lower b ->
        qualifies U a = qualifies U b].
Proof.
split=> [name | a b a_n b_n lab | a b a_a a_b lab].
- rewrite mem_files /qualifies; split.
  + by case/and3P.
  + by case=> -> -> ->.
- by rewrite !mem_files /qualifies a_n b_n lab.
- by rewrite /qualifies !lower_ascii // lab.
Qed.

(** The two spellings of the specification's example pass the filter
    whatever the Unicode database. *)
Lemma both_cases_qualify (U : unicode_db) :
  [/\ qualifies U (lit "IMG5.PNG"), qualifies U (lit "img5.png")
    & lower U (lit "IMG5.PNG") = lower U (lit "img5.png")].
Proof. by rewrite /qualifies !lower_ascii. Qed.

(** Two names that differ only in case have the same key: each is "not
    greater" than the other, and only one of them can come first. *)
Lemma tie_keeps_listing_order (U : unicode_db) :
  ~ precedes_iff_key_le U [:: lit "IMG1.png"; lit "img1.png"].
Proof.
move/(_ (lit "img1.png") (lit "IMG1.png") (lit "1") (lit "1")).
rewrite (files_ascii U basic_db) // !(proj1 (re_search_ascii U basic_db _)) //.
rewrite (int_ascii U basic_db) // !lower_ascii //.
case/(_ erefl erefl erefl erefl) => _ H.
have: before (files basic_db [:: lit "IMG1.png"; lit "img1.png"])
        (lit "img1.png") (lit "IMG1.png") by apply: H; right.
by vm_compute.
Qed.

(** The claim fails on a listing of two such names. *)
Lemma manifest_order_counterexample :
  ~ precedes_iff_key_le basic_db [:: lit "IMG1.png"; lit "img1.png"].
Proof. exact: tie_keeps_listing_order. Qed.

(** C2 (amended): among the names of the manifest that have a digit run,
    [a] precedes [b] if and only if the integer of [a]'s first digit run
    is smaller, or the integers are equal and [a]'s lowercased name is
    strictly smaller, or both are equal and [a] stood before [b] in the
    directory listing (the sort is stable). *)
Theorem manifest_order (U : unicode_db) (names : seq str) (a b ra rb : str) :
  uniq names ->
  a \in files U names -> b \in files U names ->
  re_search_digits U a = Some ra -> re_search_digits U b = Some rb ->
  before (files U names) a b <->
  [\/ (int U ra < int U rb)%num,
      int U ra = int U rb /\ str_lt (lower U a) (lower U b)
    | [/\ int U ra = int U rb, lower U a = lower U b & before names a b]].
Proof.
move=> un a_f b_f Ha Hb.
have [/eqP ab | ab] := boolP (a == b).
  move: Ha; rewrite ab Hb before_irr => -[->]; split=> //.
  case=> [/N.lt_irrefl // | [_] | [_ _]]; first by rewrite str_lt_irr.
  by rewrite before_irr.
rewrite before_files // /keyfn Ha Hb /tuple_lt /=.
case: (N.compare_spec (int U ra) (int U rb)) => [-> | iab | iba].
- rewrite N.ltb_irrefl eqxx /=.
  case/or3P: (str_lt_tri (lower U a) (lower U b)) => [lab | /eqP lab | lba].
  + rewrite lab (negbTE (lt_asym str_lt_irr str_lt_trans lab)) /= if_same.
    by split=> // _; apply: Or32.
  + rewrite lab str_lt_irr /=; split.
    * by case: (before names a b) => // _; apply: Or33.
    * by case=> [/N.lt_irrefl // | [_] | [_ _ ->] //].
  + rewrite lba (negbTE (lt_asym str_lt_irr str_lt_trans lba)) /= if_same.
    split=> //; case=> [/N.lt_irrefl // | [_] // | [_ E _]].
    by move: lba; rewrite E str_lt_irr.
- rewrite !(N_lt_ltb iab) /= if_same; split=> // _; exact: Or31.
- rewrite !(N_lt_ltb iba) /= if_same; split=> //.
  by case=> [? | [?] | [? _ _]]; lia.
Qed.

Lemma manifest_order_witness :
  let names :=
    [:: lit "img10.webp"; lit "IMG1.png"; lit "img2.png"; lit "img1.png"] in
  before (files basic_db names) (lit "IMG1.png") (lit "img1.png") <->
  [\/ (int basic_db (lit "1") < int basic_db (lit "1"))%num,
      int basic_db (lit "1") = int basic_db (lit "1") /\
      str_lt (lower basic_db (lit "IMG1.png")) (lower basic_db (lit "img1.png"))
    | [/\ int basic_db (lit "1") = int basic_db (lit "1"),
          lower basic_db (lit "IMG1.png") = lower basic_db (lit "img1.png")
        & before names (lit "IMG1.png") (lit "img1.png")]].
Proof.
by apply: manifest_order; vm_compute.
Defined.

(** A number above the sentinel, such as a timestamp, sorts after the
    names without digits. *)
Lemma number_above_sentinel (U : unicode_db) :
  ~ no_digit_names_after_all U
      [:: lit "img20240101123456.jpg"; lit "img_cover.jpg"].
Proof.
move/(_ (lit "img20240101123456.jpg") (lit "img_cover.jpg")
        (lit "20240101123456")).
have -> : files U [:: lit "img20240101123456.jpg"; lit "img_cover.jpg"] =
          files basic_db [:: lit "img20240101123456.jpg"; lit "img_cover.jpg"].
  exact: files_ascii.
have -> : re_search_digits U (lit "img20240101123456.jpg") =
          re_search_digits basic_db (lit "img20240101123456.jpg").
  exact: (proj1 (re_search_ascii U basic_db _)).
have -> : re_search_digits U (lit "img_cover.jpg") =
          re_search_digits basic_db (lit "img_cover.jpg").
  exact: (proj1 (re_search_ascii U basic_db _)).
by move/(_ erefl erefl erefl erefl); vm_compute.
Qed.

(** The claim fails on a listing with a timestamp in a name. *)
Lemma no_digit_names_last_counterexample :
  ~ no_digit_names_after_all basic_db
      [:: lit "img20240101123456.jpg"; lit "img_cover.jpg"].
Proof. exact: number_above_sentinel. Qed.

(** C3 (amended): every name of the manifest without a digit run is placed
    after every name whose first digit run is a number below the sentinel
    10^9 and before every name whose first digit run is a number above it,
    and the names without a digit run are ordered among themselves by
    their lowercased names. *)
Theorem no_digit_names_last (U : unicode_db) (names : seq str) :
  [/\ forall a b ra,
        a \in files U names -> b \in files U names ->
        re_search_digits U a = Some ra -> (int U ra < sentinel)%num ->
        re_search_digits U b = None ->
        before (files U names) a b,
      forall a b ra,
        a \in files U names -> b \in files U names ->
        re_search_digits U a = Some ra -> (sentinel < int U ra)%num ->
        re_search_digits U b = None ->
        before (files U names) b a
    & forall a b,
        a \in files U names ->
        re_search_digits U a = None -> re_search_digits U b = None ->
        before (files U names) a b ->
        str_le (lower U a) (lower U b)].
Proof.
split=> [a b ra a_f b_f Ha lt_s Hb | a b ra a_f b_f Ha lt_s Hb
        | a b a_f Ha Hb ab].
- apply: (sorted_lt_before tuple_lt_irr tuple_lt_trans tuple_lt_tri
            (files_sorted U names)) => //.
  by rewrite /keyfn Ha Hb /tuple_lt /= (N_lt_ltb lt_s).
- apply: (sorted_lt_before tuple_lt_irr tuple_lt_trans tuple_lt_tri
            (files_sorted U names)) => //.
  by rewrite /keyfn Ha Hb /tuple_lt /= (N_lt_ltb lt_s).
- have := sorted_before_le tuple_lt_irr tuple_lt_trans tuple_lt_tri
            (files_sorted U names) a_f ab.
  by rewrite /keyfn Ha Hb /tuple_lt /= ?N.ltb_irrefl ?eqxx.
Qed.

Lemma no_digit_names_last_witness :
  let names :=
    [:: lit "img_b.png"; lit "img20240101123456.jpg"; lit "img_A.png";
        lit "img7.png"] in
  [/\ before (files basic_db names) (lit "img7.png") (lit "img_b.png"),
      before (files basic_db names) (lit "img_b.png")
        (lit "img20240101123456.jpg")
    & str_le (lower basic_db (lit "img_A.png"))
        (lower basic_db (lit "img_b.png"))].
Proof.
have [below above among] :=
  no_digit_names_last basic_db
    [:: lit "img_b.png"; lit "img20240101123456.jpg"; lit "img_A.png";
        lit "img7.png"].
split.
- by apply: (below _ _ (lit "7")).
- by apply: (above _ _ (lit "20240101123456")); vm_compute.
- by apply: among; vm_compute.
Defined.

(** [\d] in a [str] pattern matches every decimal digit of the database,
    and ARABIC-INDIC DIGIT THREE (U+0663) is one: in "img" U+0663 "_v2.jpg"
    the first run of ASCII digits is "2", but the key is 3. *)
Lemma unicode_digit_read (U : unicode_db) :
  decimal U 1635 = Some 3%num -> ~ key_from_ascii_run U.
Proof.
move=> d3 /(_ (lit "img" ++ 1635%num :: lit "_v2.jpg") (lit "2")).
have ->: (keyfn U (lit "img" ++ 1635%num :: lit "_v2.jpg")).1 = 3%num.
  rewrite /keyfn (@re_search_first_run U _ [:: 1635%num]) /=.
    exists (lit "img"), (lit "_v2.jpg"); split=> //=.
    - by rewrite !is_digit_ascii.
    - by rewrite /is_digit d3.
    - by rewrite is_digit_ascii.
  by rewrite /int /= /digit_val d3.
have ->: int U (lit "2") = 2%num by rewrite /int /= digit_val_ascii.
have run2 : first_run ascii_digit
              (lit "img" ++ 1635%num :: lit "_v2.jpg") (lit "2").
  by exists (lit "img" ++ 1635%num :: lit "_v"), (lit ".jpg"); split.
by move/(_ run2).
Qed.

(** The claim fails in a database that knows the Arabic-Indic digits. *)
Lemma keyfn_first_digit_run_counterexample : ~ key_from_ascii_run basic_db.
Proof. exact: unicode_digit_read. Qed.

(** C4 (amended): the numeric part of the sort key is the integer of the
    first maximal run of decimal digits found anywhere in the filename,
    where a digit is what [\d] matches: any Unicode decimal digit, among
    which the ASCII characters are exactly 0 to 9.  When a filename holds
    several runs only the first is used, and in an all-ASCII filename this
    is the first maximal run of ASCII digits. *)
Theorem keyfn_first_digit_run (U : unicode_db) (s run : str) :
  [/\ first_run (is_digit U) s run -> (keyfn U s).1 = int U run,
      forall c, is_ascii c -> is_digit U c = ascii_digit c
    & all is_ascii s -> first_run ascii_digit s run ->
      (keyfn U s).1 = int U run].
Proof.
have key_run := @keyfn_of_run U s run.
split=> [// | c | as_s [pre [post [Es npre nnil drun npost]]]].
  exact: is_digit_ascii.
apply: key_run.
move: as_s; rewrite Es !all_cat => /and3P [apre arun apost].
exists pre, post; split=> //.
- by rewrite (eq_in_has (a2 := ascii_digit)) // => c /(allP apre)/is_digit_ascii.
- by rewrite (eq_in_all (a2 := ascii_digit)) // => c /(allP arun)/is_digit_ascii.
- rewrite (eq_in_has (a2 := ascii_digit)) // => c /mem_take c_post.
  exact/is_digit_ascii/(allP apost).
Qed.

Lemma keyfn_first_digit_run_witness :
  (keyfn basic_db (lit "img10_v2.jpg")).1 = int basic_db (lit "10") /\
  int basic_db (lit "10") = 10%num.
Proof.
split; last by [].
have [of_run _ _] :=
  keyfn_first_digit_run basic_db (lit "img10_v2.jpg") (lit "10").
by apply: of_run; exists (lit "img"), (lit "_v2.jpg"); split.
Defined.

(** A subdirectory named like an image is listed. *)
Lemma subdirectory_listed (U : unicode_db) :
  ~ subdirectories_excluded U
      [:: (lit "img1.png", Subdirectory); (lit "img2.png", RegularFile [::])].
Proof.
move/(_ true (lit "img1.png") _ erefl erefl).
by rewrite (files_ascii U basic_db) //; vm_compute.
Qed.

(** The claim fails on a directory with a subdirectory img1.png. *)
Lemma subdirectory_by_name_counterexample :
  ~ subdirectories_excluded basic_db
      [:: (lit "img1.png", Subdirectory); (lit "img2.png", RegularFile [::])].
Proof. exact: subdirectory_listed. Qed.

(** C5 (amended): a subdirectory among the entries is no error for the
    listing, which returns the names of all entries whatever they are; only
    its name is looked at, so that it is left out of the manifest exactly
    when its name fails the prefix or the extension test, and a
    subdirectory named like an image is included. *)
Theorem subdirectory_by_name
  (U : unicode_db) (w : bool) (d : directory) (name : str) :
  (name, Subdirectory) \in d ->
  os_listdir (Directory true w d) = inr (map fst d) /\
  (name \in files U (map fst d)) = qualifies U name.
Proof.
move=> n_d; split=> //; rewrite mem_files.
by have /= -> := map_f fst n_d.
Qed.

Lemma subdirectory_by_name_witness :
  let d := [:: (lit "img_old", Subdirectory); (lit "img3.gif", Subdirectory);
               (lit "img2.png", RegularFile [::])] in
  [/\ os_listdir (Directory true true d) = inr (map fst d),
      (lit "img_old" \in files basic_db (map fst d)) = false
    & (lit "img3.gif" \in files basic_db (map fst d)) = true].
Proof.
split; first by [].
- by rewrite (proj2 (subdirectory_by_name basic_db true (d := _) _)).
- by rewrite (proj2 (subdirectory_by_name basic_db true (d := _) _)).
Defined.

(** C6: if the image directory cannot be listed, because it is missing, is
    not a directory or may not be read, the run ends with a non-zero exit
    status and leaves the file system as it found it: no images.json is
    created, and one that exists keeps its content. *)
Theorem listdir_failure_no_write (U : unicode_db) (fs : node) :
  [\/ fs = Absent, fs = NotADirectory
    | exists w d, fs = Directory false w d] ->
  [/\ status (main U fs) <> 0%num, after (main U fs) = fs
    & contents (after (main U fs)) images_json = contents fs images_json].
Proof. by case=> [-> | -> | [w [d ->]]]. Qed.

Lemma listdir_failure_no_write_witness :
  let fs := Directory false true
              [:: (lit "img1.png", RegularFile [:: 1%num]);
                  (images_json, RegularFile [:: 91%num; 93%num])] in
  [/\ status (main basic_db fs) <> 0%num, after (main basic_db fs) = fs
    & contents (after (main basic_db fs)) images_json =
      contents fs images_json].
Proof.
by apply: listdir_failure_no_write; apply: Or33; exists true; eexists.
Defined.

(** What a run left is unchanged when the next run starts at once. *)
Lemma unchanged_refl (fs : node) : unchanged fs fs.
Proof. by case: fs => [| | l o d] //=; rewrite !eqxx. Qed.




(** C8: whatever the number of digits of the first digit run of a
    filename, the numeric part of its sort key is the base-10 value of the
    run: the sum of its digits, each times the power of ten of its place.
    The value is an unbounded natural number; nothing wraps around or is
    cut off. *)
Theorem keyfn_exact_value (U : unicode_db) (s run : str) :
  first_run (is_digit U) s run ->
  (keyfn U s).1 = base10_value (map (digit_val U) run).
Proof.
by move=> fr; rewrite -int_base10; apply: keyfn_of_run.
Qed.

Lemma keyfn_exact_value_witness :
  (keyfn basic_db (lit "img20240101123456.jpg")).1 =
    base10_value (map (digit_val basic_db) (lit "20240101123456")) /\
  base10_value (map (digit_val basic_db) (lit "20240101123456")) =
    20240101123456%num.
Proof.
split; last by vm_compute.
apply: keyfn_exact_value.
by exists (lit "img"), (lit ".jpg"); split.
Defined.

(** "images.json" begins with "ima": it does not pass the prefix test. *)
Lemma images_json_prefix (U : unicode_db) (names : seq str) :
  ~ images_json_excluded_by_extension U names.
Proof. by case; rewrite lower_ascii. Qed.

(** The claim fails on every listing, for instance this one. *)
Lemma images_json_prefix_counterexample :
  ~ images_json_excluded_by_extension basic_db [:: lit "images.json"].
Proof. exact: images_json_prefix. Qed.

(** C9 (amended): "images.json" is never an element of the manifest: its
    lowercased name does not start with "img" (its third letter is "a"),
    and its extension ".json" is not an allowed extension either, so the
    output file of the script is always filtered out. *)
Theorem images_json_never_listed (U : unicode_db) (names : seq str) :
  [/\ ~~ prefix (lit "img") (lower U images_json),
      (splitext (lower U images_json)).2 = lit ".json",
      lit ".json" \notin allowed
    & images_json \notin files U names].
Proof.
by rewrite mem_files images_json_rejected andbF lower_ascii.
Qed.

(** C10: the elements of the manifest are the qualifying names of the
    listing themselves, with the case they have there (the manifest is a
    rearrangement of the filtered listing), and each qualifying entry of a
    listing without repeated names occurs in it exactly once. *)
Theorem manifest_verbatim_once (U : unicode_db) (names : seq str) :
  uniq names ->
  [/\ perm_eq (files U names) [seq name <- names | qualifies U name],
      forall name, name \in files U names -> name \in names
    & forall name,
        name \in names -> qualifies U name ->
        count_mem name (files U names) = 1].
Proof.
move=> un; split; first exact: perm_files.
- by move=> name; rewrite mem_files => /andP [].
- move=> name n_in qn; rewrite count_uniq_mem ?files_uniq //.
  by rewrite mem_files n_in qn.
Qed.

Lemma manifest_verbatim_once_witness :
  let names := [:: lit "IMG5.PNG"; lit "notes.txt"; lit "img5.png"] in
  uniq names /\
  [/\ perm_eq (files basic_db names)
        [seq name <- names | qualifies basic_db name],
      forall name, name \in files basic_db names -> name \in names
    & forall name,
        name \in names -> qualifies basic_db name ->
        count_mem name (files basic_db names) = 1].
Proof.
split; first by vm_compute.
by apply: manifest_verbatim_once; vm_compute.
Defined.

(** * Further properties of the script *)

(** ** The sort *)

Lemma list_sort_class (T K : eqType) (key : T -> K) (lt : rel K) k s :
  irreflexive lt -> transitive lt ->
  (forall x y, [|| lt x y, x == y | lt y x]) ->
  [seq x <- list_sort lt key s | key x == k] = [seq x <- s | key x == k].
Proof.
move=> irr tr tri; rewrite (filter_list_sort _ irr tr tri) /list_sort.
by rewrite pairwise_sort //; apply: (class_pairwise irr (k := k)); apply: filter_all.
Qed.

(** X1: the sorted manifest is determined by two properties, which it has:
    its keys never decrease from one name to the next, and for every key
    the names with that key are the qualifying names of the listing with
    that key, in the order of the listing.  Any list with these two
    properties is the manifest. *)
Theorem manifest_characterised (U : unicode_db) (names out : seq str) :
  out = files U names <->
  sorted (fun a b => ~~ tuple_lt (keyfn U b) (keyfn U a)) out /\
  (forall k,
     [seq name <- out | keyfn U name == k] =
     [seq name <- names | qualifies U name && (keyfn U name == k)]).
Proof.
have cls k : [seq name <- names | qualifies U name && (keyfn U name == k)] =
             [seq name <- selected U names | keyfn U name == k].
  by rewrite /selected -filter_predI; apply: eq_filter => name /=; rewrite andbC.
split=> [-> | [so co]].
- split; first exact: files_sorted.
  by move=> k; rewrite cls (list_sort_class _ _ _ tuple_lt_irr tuple_lt_trans
                               tuple_lt_tri).
- apply: (stable_sort_unique tuple_lt_irr tuple_lt_trans tuple_lt_tri) => //.
  by move=> k; rewrite co cls.
Qed.

(** X2: the manifest is a fixed point of the filter and the sort: given
    the manifest itself as the listing, the script computes the same
    manifest again. *)
Theorem manifest_of_manifest (U : unicode_db) (names : seq str) :
  files U (files U names) = files U names.
Proof.
have sel : selected U (files U names) = files U names.
  by apply/all_filterP/allP => name; rewrite mem_files => /andP [].
rewrite {1}/files sel /list_sort sorted_sort //; last exact: files_sorted.
by move=> b a c; apply: (nlt_trans tuple_lt_trans tuple_lt_tri).
Qed.

(** X3: in a listing without repeated names, the relative position of any
    two distinct names of the manifest, with or without digits, depends
    only on their two keys and on their order in the listing: the one with
    the smaller key comes first, and with equal keys the one listed first
    comes first. *)
Theorem order_of_two_names (U : unicode_db) (names : seq str) (a b : str) :
  uniq names -> a \in files U names -> b \in files U names -> a != b ->
  before (files U names) a b <->
  tuple_lt (keyfn U a) (keyfn U b) \/
  (keyfn U a = keyfn U b /\ before names a b).
Proof.
move=> un a_f b_f ab; rewrite before_files //.
have asym := lt_asym tuple_lt_irr tuple_lt_trans.
case bef: (before names a b); split.
- move=> nba; case/or3P: (tuple_lt_tri (keyfn U a) (keyfn U b)) nba.
  + by left.
  + by move/eqP; right.
  + by move=> ->.
- by case=> [/asym | [-> _]] //; rewrite tuple_lt_irr.
- by left.
- by case=> [| []].
Qed.

Lemma order_of_two_names_witness :
  let names := [:: lit "img_b.gif"; lit "IMG3.png"; lit "img3.PNG"] in
  before (files basic_db names) (lit "IMG3.png") (lit "img_b.gif") <->
  tuple_lt (keyfn basic_db (lit "IMG3.png")) (keyfn basic_db (lit "img_b.gif")) \/
  (keyfn basic_db (lit "IMG3.png") = keyfn basic_db (lit "img_b.gif") /\
   before names (lit "IMG3.png") (lit "img_b.gif")).
Proof. by apply: order_of_two_names; vm_compute. Defined.

(** ** Numbers in names *)

Lemma int_zeros (U : unicode_db) (z run : str) :
  all (fun c => digit_val U c == 0%num) z -> int U (z ++ run) = int U run.
Proof.
rewrite /int foldl_cat => az; congr foldl.
by elim: z az => [|c z IH] //= /andP [/eqP -> /IH].
Qed.

(** X4: zeros at the head of the digit run do not count: two names whose
    first digit runs differ only by leading zeros, like img007.png and
    img7.png, have the same number in their sort keys (and are then ordered
    by their lowercased names). *)
Theorem leading_zeros_ignored (U : unicode_db) (s1 s2 z run : str) :
  all (fun c => digit_val U c == 0%num) z ->
  first_run (is_digit U) s1 (z ++ run) -> first_run (is_digit U) s2 run ->
  (keyfn U s1).1 = (keyfn U s2).1.
Proof.
by move=> az /keyfn_of_run -> /keyfn_of_run ->; apply: int_zeros.
Qed.

Lemma leading_zeros_ignored_witness :
  (keyfn basic_db (lit "img007.png")).1 = (keyfn basic_db (lit "img7.png")).1.
Proof.
apply: (@leading_zeros_ignored basic_db _ _ (lit "00") (lit "7")) => //.
- by exists (lit "img"), (lit ".png"); split.
- by exists (lit "img"), (lit ".png"); split.
Defined.

Lemma int_ge_pow (U : unicode_db) (c : N) (run : str) :
  digit_val U c != 0%num ->
  (10 ^ N.of_nat (size run) <= int U (c :: run))%num.
Proof.
move/eqP => c0; rewrite int_base10 /= size_map.
have: (1 <= digit_val U c)%num by lia.
move: (digit_val U c) (base10_value _) (N.pow _ _) => d v p; nia.
Qed.

(** X5: natural order.  Of two names of the manifest, the one whose first
    digit run is shorter comes first, provided the longer run does not
    begin with a zero: img2.png comes before img10.png, although it comes
    after it alphabetically. *)
Theorem fewer_digits_first
  (U : unicode_db) (names : seq str) (a b ra rb : str) :
  a \in files U names -> b \in files U names ->
  re_search_digits U a = Some ra -> re_search_digits U b = Some rb ->
  size ra < size rb -> digit_val U (head 0%num rb) != 0%num ->
  before (files U names) a b.
Proof.
move=> a_f b_f Ha Hb; case: rb Hb => [|c rb] //= Hb; rewrite ltnS => /leP sz c0.
apply: (sorted_lt_before tuple_lt_irr tuple_lt_trans tuple_lt_tri
          (files_sorted U names)) => //.
rewrite /keyfn Ha Hb /tuple_lt /=; apply/orP; left; apply/N.ltb_lt.
have := int_lt_pow U ra; have := @int_ge_pow U c rb c0.
have : (10 ^ N.of_nat (size ra) <= 10 ^ N.of_nat (size rb))%num.
  by apply: N.pow_le_mono_r; lia.
lia.
Qed.

Lemma fewer_digits_first_witness :
  before (files basic_db [:: lit "img10.png"; lit "img2.png"])
    (lit "img2.png") (lit "img10.png").
Proof.
by apply: (@fewer_digits_first basic_db _ _ _ (lit "2") (lit "10")).
Defined.

(** ** The extension test *)

Lemma splitext_loop_result n p f d r :
  splitext_loop n p f d = Some r ->
  r = (take (Z.to_nat d) p, drop (Z.to_nat d) p).
Proof.
elim: n f => [|n IH] f //=; case: ifP => // _; case: ifP => _; last exact: IH.
by case.
Qed.

(** X6: [os.path.splitext] as the filter uses it: root and extension put
    together give the path back, and the extension is either empty or a
    period followed by characters among which there is neither a period nor
    a separator. *)
Theorem splitext_laws (p : str) :
  (splitext p).1 ++ (splitext p).2 = p /\
  ((splitext p).2 = [::] \/
   exists e, [/\ (splitext p).2 = extsep :: e, extsep \notin e
                & sep \notin e]).
Proof.
rewrite /splitext /rfind; case: Z.ltb_spec => [lt_sd | _]; last first.
  by rewrite /= cats0; split; [ | left].
case E: (splitext_loop _ _ _ _) => [r|]; last first.
  by rewrite /= cats0; split; [ | left].
rewrite (splitext_loop_result E) /= cat_take_drop; split=> //; right.
have dot : extsep \in p.
  apply/negPn/negP => /rfind_from_notin => /(_ 0%Z) nd.
  have := @rfind_from_ge sep p 0%Z (Z.le_refl 0); lia.
have [p1 [p2 [Ep np2]]] := last_occurrence dot.
move: lt_sd; rewrite Ep rfind_from_last //= Nat2Z.id drop_size_cat // => lt_sd.
exists p2; split=> //; apply/negP => /last_occurrence [a [b [Ea nb]]].
move: lt_sd; rewrite Ea -cat_cons catA rfind_from_last // size_cat /=.
rewrite Nat2Z.inj_add; lia.
Qed.

(** X7: for a name whose lowercased form holds no separator, as the names
    of a directory listing, the filter is a test of the two ends of the
    lowercased name: the name is in the manifest if and only if it is
    listed, its lowercased form starts with "img" and ends with one of
    .jpg, .jpeg, .png, .webp, .gif. *)
Theorem listed_by_prefix_and_suffix
  (U : unicode_db) (names : seq str) (name : str) :
  sep \notin lower U name ->
  (name \in files U names) =
  [&& name \in names, prefix (lit "img") (lower U name)
    & has (fun e => suffix e (lower U name)) allowed].
Proof. by move=> nsep; rewrite mem_files qualifies_suffix. Qed.

Lemma listed_by_prefix_and_suffix_witness :
  let names := [:: lit "IMG_0042.JPeG"; lit "img.jpg.txt"] in
  (lit "IMG_0042.JPeG" \in files basic_db names) =
  [&& lit "IMG_0042.JPeG" \in names,
      prefix (lit "img") (lower basic_db (lit "IMG_0042.JPeG"))
    & has (fun e => suffix e (lower basic_db (lit "IMG_0042.JPeG"))) allowed].
Proof. by apply: listed_by_prefix_and_suffix. Defined.

(** ** What a run writes *)

(** The code points the UTF-8 codec accepts: the Unicode range without the
    surrogates. *)
Definition encodable (c : N) : bool :=
  N.ltb c 55296 || N.ltb 57343 c && N.ltb c 1114112.

Section Writing.

Implicit Types (c : N) (s : str) (l : seq str) (chunks : seq str).

Lemma utf8_char_some c : isSome (utf8_char c) = encodable c.
Proof.
rewrite /utf8_char /encodable.
repeat (match goal with
        | |- context [N.ltb ?a ?b] => case: (N.ltb_spec a b) => ?
        | |- context [N.leb ?a ?b] => case: (N.leb_spec a b) => ?
        end); rewrite //=; lia.
Qed.

Lemma utf8_encode_some s : isSome (utf8_encode s) = all encodable s.
Proof.
elim: s => [|c s IH] //=; rewrite -utf8_char_some -IH.
by case: (utf8_char c) => [b|] //; case: (utf8_encode s).
Qed.

Lemma utf8_encode_cat s1 s2 b1 b2 :
  utf8_encode s1 = Some b1 -> utf8_encode s2 = Some b2 ->
  utf8_encode (s1 ++ s2) = Some (b1 ++ b2).
Proof.
move=> + E2; elim: s1 b1 => [|c s1 IH] b1 /=; first by case=> <-.
case: (utf8_char c) => [b|] //; case: (utf8_encode s1) IH => [bs|] // IH [<-].
by rewrite (IH bs) // catA.
Qed.







(** The chunks written one after the other add up to the encoding of the
    whole text; the writing stops at the first chunk that cannot be
    encoded. *)
Lemma write_chunks_complete chunks written :
  all (all encodable) chunks ->
  exists2 b, utf8_encode (flatten chunks) = Some b
           & write_chunks chunks written = (written ++ b, true).
Proof.
elim: chunks written => [|chunk chunks IH] written /=.
  by exists [::]; rewrite ?cats0.
case/andP=> ec /IH {}IH; move: ec; rewrite -utf8_encode_some.
case E: (utf8_encode chunk) => [b|] // _.
have [bs Ebs ->] := IH (written ++ b).
by exists (b ++ bs); rewrite ?catA // (utf8_encode_cat E Ebs).
Qed.


Lemma write_chunks_flag chunks written :
  (write_chunks chunks written).2 = all (all encodable) chunks.
Proof.
elim: chunks written => [|chunk chunks IH] written //=.
rewrite -utf8_encode_some.
by case: (utf8_encode chunk) => [b|] //=.
Qed.

End Writing.

(** ** How a run ends *)


Lemma size_files (U : unicode_db) (names : seq str) :
  size (files U names) = count (qualifies U) names.
Proof. by rewrite /files /list_sort size_sort size_filter. Qed.



Lemma success_written (U : unicode_db) (fs : node) :
  status (main U fs) = 0%num ->
  exists2 data,
    utf8_encode (flatten (iterencode (files U (names_of fs)))) = Some data
    & contents (after (main U fs)) images_json = Some (RegularFile data).
Proof.
case: fs => [| | l w d] //; rewrite /main /=; case: l => //.
case: ifP => // _; case: w => //=.
case E: (write_chunks _ _) => [data complete] /=; case: complete E => // E _.
have enc : all (all encodable) (iterencode (files U (map fst d))).
  by rewrite -(write_chunks_flag _ [::]) E.
have [b Eb] := write_chunks_complete [::] enc.
by rewrite E => -[->]; exists b; rewrite //= lookup_store.
Qed.

(** X9: when a run ends with exit status 0, images.json is a regular file
    that holds the UTF-8 encoding of the whole JSON text of the manifest:
    the pieces written one after the other add up to it. *)
Theorem written_bytes (U : unicode_db) (fs : node) :
  status (main U fs) = 0%num ->
  exists2 data,
    utf8_encode (flatten (iterencode (files U (names_of fs)))) = Some data
    & contents (after (main U fs)) images_json = Some (RegularFile data).
Proof.
case: fs => [| | [] [] d] //; rewrite /main /=; try by case: ifP.
case: ifP => // _.
case E: (write_chunks _ _) => [data complete] /=; case: complete E => // E _.
have enc : all (all encodable) (iterencode (files U (map fst d))).
  by rewrite -(write_chunks_flag _ [::]) E.
move: E; have [b Eb ->] := write_chunks_complete [::] enc.
by case=> <-; exists b; rewrite //= lookup_store.
Qed.

Lemma written_bytes_witness :
  let fs := Directory true true
              [:: (lit "img2.png", RegularFile [::]);
                  (lit "img1.png", Subdirectory)] in
  exists2 data,
    utf8_encode (flatten (iterencode (files basic_db (names_of fs)))) =
      Some data
    & contents (after (main basic_db fs)) images_json =
      Some (RegularFile data).
Proof. by apply: written_bytes. Defined.

(** X10: the line printed on standard output.  A run prints its line
    "OK -> img/images.json ( n imgs )" exactly when it ends with exit
    status 0, and then n is the number of listed names that pass the
    filter; a run that fails prints nothing there. *)
Theorem report_line (U : unicode_db) (fs : node) :
  stdout (main U fs) =
  if status (main U fs) == 0%num then
    lit "OK -> img/images.json ( " ++
    str_of_nat (count (qualifies U) (names_of fs)) ++
    lit " imgs )" ++ [:: 10%num]
  else [::].
Proof.
case: fs => [| | l w d] //; rewrite /main /=; case: l => //.
case: ifP => // _; case: w => //=.
case: (write_chunks _ _) => [data complete] /=; case: complete => //=.
by rewrite size_files.
Qed.

(** X11: when the listing succeeds but images.json is not opened for
    writing, because the system refuses the open or because images.json
    is itself a directory, the run ends with exit status 1, prints
    nothing and leaves the file system as it was: an images.json that was
    there keeps what it held. *)
Theorem open_failure_no_change
  (U : unicode_db) (openable : bool) (d : directory) :
  ~~ openable || (lookup d images_json == Some Subdirectory) ->
  main U (Directory true openable d) =
  Outcome 1%num (Directory true openable d) [::].
Proof.
by rewrite /main /=; case: ifP => // _; rewrite orbF; case: openable.
Qed.

Lemma open_failure_no_change_witness :
  let d := [:: (lit "img1.png", RegularFile [::]);
               (images_json, RegularFile [:: 91%num; 93%num])] in
  main basic_db (Directory true false d) =
  Outcome 1%num (Directory true false d) [::].
Proof. by apply: open_failure_no_change. Defined.






(** X14: the manifest is made anew from the names alone.  Two directories
    with the same names in the same order and the same permissions, in
    both or in neither of which images.json is a directory, make the run
    end alike and print alike, and when the run succeeds images.json is
    the same in both: neither the content of the files nor an earlier
    images.json plays a part. *)
Theorem regenerated_from_names
  (U : unicode_db) (l w : bool) (d d' : directory) :
  map fst d = map fst d' ->
  (lookup d images_json == Some Subdirectory) =
  (lookup d' images_json == Some Subdirectory) ->
  [/\ status (main U (Directory l w d)) = status (main U (Directory l w d')),
      stdout (main U (Directory l w d)) = stdout (main U (Directory l w d'))
    & status (main U (Directory l w d)) = 0%num ->
      contents (after (main U (Directory l w d))) images_json =
      contents (after (main U (Directory l w d'))) images_json].
Proof.
move=> En Es; rewrite /main /= -En -Es; case: l => //.
case: ifP => // _; case: w => //=.
case: (write_chunks _ _) => [data complete] /=.
by case: complete; rewrite /= !lookup_store.
Qed.

Lemma regenerated_from_names_witness :
  let d := [:: (lit "img1.png", RegularFile [:: 1%num]);
               (images_json, RegularFile (lit "old"))] in
  let d' := [:: (lit "img1.png", Subdirectory);
                (images_json, RegularFile [::])] in
  contents (after (main basic_db (Directory true true d))) images_json =
  contents (after (main basic_db (Directory true true d'))) images_json.
Proof.
move=> d d'.
by have [_ _ -> //] := @regenerated_from_names basic_db true true d d'
                          erefl erefl.
Defined.



(** ** Reading back the JSON text *)

(** A reader for the texts the script writes, used to show that nothing of
    the names is lost in them; it is no part of the script.  It walks
    through the text, collects what stands between double quotes and
    undoes the escapes. *)
Definition unhex (h : N) : N :=
  if N.ltb h 58 then N.sub h 48 else N.sub h 87.

Definition unescape (e : N) : N :=
  if e == 98%num then 8%num
  else if e == 102%num then 12%num
  else if e == 110%num then 10%num
  else if e == 114%num then 13%num
  else if e == 116%num then 9%num
  else e.

Fixpoint read_strings (t : str) (cur : option str) (acc : seq str)
  : seq str :=
  match t with
  | [::] => rev acc
  | c :: t' =>
      match cur with
      | None => read_strings t' (if c == 34%num then Some [::] else None) acc
      | Some w =>
          if c == 34%num then read_strings t' None (rev w :: acc)
          else if c == 92%num then
            match t' with
            | e :: t'' =>
                if e == 117%num then
                  match t'' with
                  | _ :: _ :: h :: l :: t3 =>
                      read_strings t3
                        (Some (N.add (N.mul 16 (unhex h)) (unhex l) :: w)) acc
                  | _ => rev acc
                  end
                else read_strings t'' (Some (unescape e :: w)) acc
            | [::] => rev acc
            end
          else read_strings t' (Some (c :: w)) acc
      end
  end.

Section Reading.

Implicit Types (c : N) (s t w : str) (l acc : seq str).

Lemma unhex_hex_digit n : (n < 16)%num -> unhex (hex_digit n) = n.
Proof.
move=> n16; rewrite /hex_digit /unhex.
by case: (N.ltb_spec n 10) => ?; case: N.ltb_spec => ?; lia.
Qed.

Lemma read_escape c t w acc :
  read_strings (escape c ++ t) (Some w) acc =
  read_strings t (Some (c :: w)) acc.
Proof.
rewrite /escape.
do 7!(case: eqP => [-> // | /eqP/negbTE ?]).
case: N.ltb_spec => [c32 | _] /=; last by do 2!(rewrite ifF //).
have d16 : (c / 16 < 16)%num by apply: N.Div0.div_lt_upper_bound; lia.
have m16 : (c mod 16 < 16)%num by exact: N.mod_lt.
by rewrite !unhex_hex_digit // -/(N.mul 16 (c / 16)) -N.div_mod'.
Qed.

Lemma read_escapes s t w acc :
  read_strings (flatten (map escape s) ++ t) (Some w) acc =
  read_strings t (Some (catrev s w)) acc.
Proof.
elim: s w => [|c s IH] w //=.
by rewrite -catA read_escape IH.
Qed.

Lemma read_basestring s t acc :
  read_strings (py_encode_basestring s ++ t) None acc =
  read_strings t None (s :: acc).
Proof.
rewrite /py_encode_basestring /= -catA read_escapes /=.
by rewrite catrevE cats0 revK.
Qed.

Lemma read_buf (first : bool) t acc :
  read_strings
    ((if first then 91%num :: newline_indent
      else 44%num :: newline_indent) ++ t) None acc =
  read_strings t None acc.
Proof. by case: first. Qed.

Lemma read_items first l t acc :
  read_strings (flatten (iterencode_items first l) ++ t) None acc =
  read_strings t None (catrev l acc).
Proof.
elim: l first acc => [|value l IH] first acc //.
rewrite [iterencode_items _ _]/= [flatten _]/= -!catA.
by rewrite read_buf read_basestring IH.
Qed.

Lemma read_iterencode l : read_strings (flatten (iterencode l)) None [::] = l.
Proof.
case: l => [|value l] //; rewrite /iterencode flatten_cat read_items.
have -> acc : read_strings (flatten [:: [:: 10%num]; lit "]"]) None acc =
              rev acc by [].
by rewrite catrevE cats0 revK.
Qed.

End Reading.

(** X16: the JSON text keeps the names whole.  Two manifests that are
    written as the same text are the same list of the same names, whatever
    characters the names hold: quotes, backslashes, control characters and
    characters outside ASCII are all told apart in the text. *)
Theorem json_text_lossless (l1 l2 : seq str) :
  flatten (iterencode l1) = flatten (iterencode l2) -> l1 = l2.
Proof.
by move/(congr1 (fun t => read_strings t None [::])); rewrite !read_iterencode.
Qed.

Lemma json_text_lossless_witness :
  [:: [:: 105; 34; 92]%num; lit "img1.png"] =
  [:: [:: 105; 34; 92]%num; lit "img1.png"].
Proof. by apply: json_text_lossless. Defined.

(** ** The lines of the JSON text *)

Section Lines.

Implicit Types (c : N) (s : str) (l : seq str).

Let ctrl : pred N := fun c => N.ltb c 32.

Lemma hex_digit_ge n : ~~ ctrl (hex_digit n).
Proof.
rewrite /ctrl /hex_digit.
by case: (N.ltb_spec n 10) => _; case: N.ltb_spec => //; lia.
Qed.

Lemma escape_no_ctrl c : [seq x <- escape c | ctrl x] = [::].
Proof.
rewrite /escape; do 7!(case: eqP => [// | _]).
rewrite -/(ctrl c); case c32: (ctrl c); last by rewrite /= c32.
by rewrite /= !(negbTE (hex_digit_ge _)).
Qed.

Lemma basestring_no_ctrl s :
  [seq x <- py_encode_basestring s | ctrl x] = [::].
Proof.
rewrite /py_encode_basestring /= filter_cat /= cats0.
by elim: s => [|c s IH] //=; rewrite filter_cat escape_no_ctrl IH.
Qed.

Lemma items_ctrl first l :
  [seq x <- flatten (iterencode_items first l) | ctrl x] =
  nseq (size l) 10%num.
Proof.
elim: l first => [|value l IH] first //.
rewrite [iterencode_items _ _]/= [flatten _]/= !filter_cat IH.
by rewrite basestring_no_ctrl cats0; case: first.
Qed.

(** X17: every name stands on a line of its own.  The only control
    characters in the JSON text are line feeds, one before each name and
    one before the closing bracket; control characters inside a name are
    written as escapes.  The text of an empty manifest has none. *)
Theorem one_name_per_line l :
  [seq x <- flatten (iterencode l) | N.ltb x 32] =
  if l is [::] then [::] else nseq (size l).+1 10%num.
Proof.
case: l => [|value l] //.
rewrite /iterencode flatten_cat filter_cat -/ctrl items_ctrl.
by rewrite -[in RHS]addn1 nseqD.
Qed.

End Lines.

(** ** Reading back the bytes *)

(** A UTF-8 decoder for the bytes the script writes, used to show that the
    encoding loses nothing; it is no part of the script. *)
Fixpoint utf8_decode (b : seq N) : str :=
  match b with
  | [::] => [::]
  | b0 :: r0 =>
      if N.ltb b0 128 then b0 :: utf8_decode r0
      else
        match r0 with
        | b1 :: r1 =>
            if N.ltb b0 224 then
              N.add (N.mul (N.sub b0 192) 64) (N.sub b1 128) :: utf8_decode r1
            else
              match r1 with
              | b2 :: r2 =>
                  if N.ltb b0 240 then
                    N.add (N.add (N.mul (N.sub b0 224) 4096)
                                 (N.mul (N.sub b1 128) 64))
                          (N.sub b2 128)
                    :: utf8_decode r2
                  else
                    match r2 with
                    | b3 :: r3 =>
                        N.add (N.add (N.add (N.mul (N.sub b0 240) 262144)
                                            (N.mul (N.sub b1 128) 4096))
                                     (N.mul (N.sub b2 128) 64))
                              (N.sub b3 128)
                        :: utf8_decode r3
                    | [::] => [::]
                    end
              | [::] => [::]
              end
        | [::] => [::]
        end
  end.

Section Bytes.

Local Arguments N.mul : simpl never.
Local Arguments N.add : simpl never.
Local Arguments N.sub : simpl never.
Local Arguments N.div : simpl never.
Local Arguments N.modulo : simpl never.
Local Arguments N.ltb : simpl never.
Local Arguments N.leb : simpl never.
Local Arguments N.lor : simpl never.
Local Arguments N.land : simpl never.
Local Arguments N.shiftr : simpl never.

(** A property checked on every number below a bound holds below it. *)
Lemma below_check (P : pred N) (n : nat) :
  all P [seq N.of_nat i | i <- iota 0 n] ->
  forall x, (x < N.of_nat n)%num -> P x.
Proof.
move=> /allP chk x xn; apply: chk; rewrite -(N2Nat.id x); apply: map_f.
by rewrite mem_iota /= add0n; apply/ltP; lia.
Qed.

Lemma lor_marker (m : N) (k : nat) :
  all (fun x => N.lor m x == N.add m x) [seq N.of_nat i | i <- iota 0 k] ->
  forall x, (x < N.of_nat k)%num -> N.lor m x = N.add m x.
Proof. by move=> chk x xk; apply/eqP; apply: (below_check chk). Qed.

Lemma lor128 x : (x < 64)%num -> N.lor 128 x = N.add 128 x.
Proof. by apply: (@lor_marker 128 64); vm_compute. Qed.

Lemma lor192 x : (x < 32)%num -> N.lor 192 x = N.add 192 x.
Proof. by apply: (@lor_marker 192 32); vm_compute. Qed.

Lemma lor224 x : (x < 16)%num -> N.lor 224 x = N.add 224 x.
Proof. by apply: (@lor_marker 224 16); vm_compute. Qed.

Lemma lor240 x : (x < 8)%num -> N.lor 240 x = N.add 240 x.
Proof. by apply: (@lor_marker 240 8); vm_compute. Qed.

Lemma shiftr6 x : N.shiftr x 6 = N.div x 64.
Proof. by rewrite N.shiftr_div_pow2. Qed.

Lemma shiftr12 x : N.shiftr x 12 = N.div (N.div x 64) 64.
Proof. by rewrite N.shiftr_div_pow2 N.Div0.div_div. Qed.

Lemma shiftr18 x : N.shiftr x 18 = N.div (N.div (N.div x 64) 64) 64.
Proof. by rewrite N.shiftr_div_pow2 !N.Div0.div_div. Qed.

Lemma land63 x : N.land x 63 = N.modulo x 64.
Proof. by rewrite -[63%num]/(N.ones 6) N.land_ones. Qed.

Ltac settle_ltb :=
  repeat (match goal with
          | |- context [N.ltb ?a ?b] =>
              case: (N.ltb_spec a b) => ?; try (exfalso; lia)
          end).

Lemma utf8_decode_char c bs r :
  utf8_char c = Some bs -> utf8_decode (bs ++ r) = c :: utf8_decode r.
Proof.
rewrite /utf8_char !shiftr6 !shiftr12 !shiftr18 !land63.
have n64 : 64%num <> 0%num by [].
have := N.div_mod' c 64; have := @N.mod_lt c 64 n64.
move: (N.modulo c 64) (N.div c 64) => r0 q0.
have := N.div_mod' q0 64; have := @N.mod_lt q0 64 n64.
move: (N.modulo q0 64) (N.div q0 64) => r1 q1.
have := N.div_mod' q1 64; have := @N.mod_lt q1 64 n64.
move: (N.modulo q1 64) (N.div q1 64) => r2 q2 r2lt Eq1 r1lt Eq0 r0lt Ec.
case: (N.ltb_spec c 128) => c128.
  by case=> <- /=; case: N.ltb_spec => //; lia.
case: (N.ltb_spec c 2048) => c2048.
  rewrite (@lor192 q0 ltac:(lia)) (@lor128 r0 r0lt) => -[<-] /=.
  by settle_ltb; congr (_ :: _); lia.
case: (N.ltb_spec c 65536) => c65536.
  case: ifP => // _.
  rewrite (@lor224 q1 ltac:(lia)) (@lor128 r1 r1lt) (@lor128 r0 r0lt).
  by case=> <- /=; settle_ltb; congr (_ :: _); lia.
case: (N.ltb_spec c 1114112) => // cmax.
rewrite (@lor240 q2 ltac:(lia)) (@lor128 r2 r2lt) (@lor128 r1 r1lt).
rewrite (@lor128 r0 r0lt) => -[<-] /=.
by settle_ltb; congr (_ :: _); lia.
Qed.

Lemma utf8_encodeK s b : utf8_encode s = Some b -> utf8_decode b = s.
Proof.
elim: s b => [|c s IH] b /=; first by case=> <-.
case Ec: (utf8_char c) => [bs|] //; case Es: (utf8_encode s) => [b'|] // [<-].
by rewrite (utf8_decode_char _ Ec) (IH _ Es).
Qed.

End Bytes.

(** X18: the UTF-8 encoding of the text loses nothing: two texts that are
    written as the same bytes are the same text. *)
Theorem utf8_lossless (s1 s2 : str) (b : seq N) :
  utf8_encode s1 = Some b -> utf8_encode s2 = Some b -> s1 = s2.
Proof. by move=> /utf8_encodeK <- /utf8_encodeK <-. Qed.

Lemma utf8_lossless_witness :
  [:: 105; 233; 8364; 128512]%num = [:: 105; 233; 8364; 128512]%num.
Proof.
by apply: (@utf8_lossless _ _
             [:: 105; 195; 169; 226; 130; 172; 240; 159; 152; 128]%num).
Defined.

(** ** From the file back to the manifest *)

(** X19: images.json tells the manifest.  If two successful runs, on any
    two directories, leave the same bytes in images.json, they computed the
    same manifest: the same names in the same order. *)
Theorem file_determines_manifest (U : unicode_db) (fs1 fs2 : node) :
  status (main U fs1) = 0%num -> status (main U fs2) = 0%num ->
  contents (after (main U fs1)) images_json =
  contents (after (main U fs2)) images_json ->
  files U (names_of fs1) = files U (names_of fs2).
Proof.
move=> /success_written [data1 E1 ->] /success_written [data2 E2 ->] [E].
rewrite -(read_iterencode (files U (names_of fs1))).
rewrite -(read_iterencode (files U (names_of fs2))).
by rewrite -(utf8_encodeK E1) -(utf8_encodeK E2) E.
Qed.

Lemma file_determines_manifest_witness :
  let fs1 := Directory true true
               [:: (lit "img2.png", RegularFile [::]);
                   (lit "cover.png", RegularFile [::]);
                   (lit "img1.png", RegularFile [::])] in
  let fs2 := Directory true true
               [:: (lit "img1.png", Subdirectory);
                   (lit "img2.png", RegularFile [:: 1%num])] in
  files basic_db (names_of fs1) = files basic_db (names_of fs2).
Proof. by apply: file_determines_manifest. Defined.

(** X20: the manifest of a part of the listing is the same part of the
    manifest.  Whatever test selects the names that stay in the listing,
    the names that stay are in the manifest in the order they had in it:
    taking names away from the directory takes them away from the manifest
    and moves nothing else. *)
Theorem manifest_of_sublisting
  (U : unicode_db) (keep : pred str) (names : seq str) :
  files U [seq name <- names | keep name] =
  [seq name <- files U names | keep name].
Proof.
rewrite /files (filter_list_sort _ tuple_lt_irr tuple_lt_trans tuple_lt_tri).
by rewrite /selected -!filter_predI; congr list_sort; apply: eq_filter => name;
   rewrite /= andbC.
Qed.
